(** * Tic-Tac-Toe solver: outcome evaluator, alpha-beta search, move driver

    A shallow embedding of the game logic of [tictactoewithgui.py]
    ([available_moves], [winner], [score_for], [minimax], [ai_move]) and the
    properties of it that the design document states.

    The Python code works on one shared list object, the board, which the
    search mutates in place and restores.  The embedding keeps that: every
    operation that touches the board is a computation in a state-and-exception
    monad whose state is the board.  Python integers are [Z], list indices are
    [nat], the probability is an IEEE binary64 float. *)

From Stdlib Require Import ZArith List Bool Arith Lia.
From Stdlib Require Import Uint63 PrimFloat.
Import ListNotations.

Local Open Scope Z_scope.

(** ** Data model *)

(** The three strings a cell holds: [EMPTY = " "], [HUMAN = "X"], [AI = "O"]. *)
Inductive cell : Type := EMPTY | HUMAN | AI.

Definition cell_eqb (x y : cell) : bool :=
  match x, y with
  | EMPTY, EMPTY | HUMAN, HUMAN | AI, AI => true
  | _, _ => false
  end.

Definition board := list cell.

(** What [winner] returns when it is not [None]: the string of the winning
    cell, or the string ["Draw"]. *)
Inductive result : Type := Win (c : cell) | Draw.

(** The Python exceptions that can occur. *)
Inductive exn : Type := IndexError | ValueError | TypeError.

(** Outcome of running a piece of code: a value, a raised exception, or the
    recursion budget of the model used up. *)
Inductive res (A : Type) : Type :=
| Ok (a : A)
| Raise (e : exn)
| OutOfFuel.
Arguments Ok {A} a.
Arguments Raise {A} e.
Arguments OutOfFuel {A}.

(** ** Computations over the shared board *)

Module Import BoardMonad.

(** A computation takes the board as it is and returns a value together with
    the board as it leaves it.  An exception ends the computation; nothing
    here catches one, so the board it leaves behind is not kept. *)
Definition M (A : Type) : Type := board -> res (A * board).

Definition ret {A} (a : A) : M A := fun b => Ok (a, b).

Definition bind {A B} (m : M A) (f : A -> M B) : M B :=
  fun b =>
    match m b with
    | Ok (a, b') => f a b'
    | Raise e => Raise e
    | OutOfFuel => OutOfFuel
    end.

(** Run a function that only reads the board. *)
Definition inspect {A} (f : board -> res A) : M A :=
  fun b =>
    match f b with
    | Ok a => Ok (a, b)
    | Raise e => Raise e
    | OutOfFuel => OutOfFuel
    end.

(** Lift a result that does not involve the board. *)
Definition lift {A} (r : res A) : M A := inspect (fun _ => r).

(** Functional list update; the list is unchanged when [i] is out of range. *)
Fixpoint upd (b : board) (i : nat) (v : cell) : board :=
  match b, i with
  | [], _ => []
  | _ :: t, O => v :: t
  | h :: t, S j => h :: upd t j v
  end.

(** [board[i] = v]: raises [IndexError] out of range. *)
Definition store (i : nat) (v : cell) : M unit :=
  fun b => if (i <? length b)%nat then Ok (tt, upd b i v) else Raise IndexError.

End BoardMonad.

Declare Scope board_scope.
Delimit Scope board_scope with board.
Notation "x <- m ;; k" := (bind m (fun x => k))
  (at level 61, m at next level, right associativity) : board_scope.
Notation "m ;; k" := (bind m (fun _ => k))
  (at level 61, right associativity) : board_scope.

(** Sequencing of board-free fallible steps. *)
Definition rbind {A B} (r : res A) (f : A -> res B) : res B :=
  match r with
  | Ok a => f a
  | Raise e => Raise e
  | OutOfFuel => OutOfFuel
  end.

(** [board[i]] as an expression: raises [IndexError] out of range. *)
Definition get (b : board) (i : nat) : res cell :=
  match nth_error b i with
  | Some c => Ok c
  | None => Raise IndexError
  end.

(** ** Outcome evaluator *)

Definition WIN_LINES : list (nat * nat * nat) :=
  [ (0, 1, 2); (3, 4, 5); (6, 7, 8);
    (0, 3, 6); (1, 4, 7); (2, 5, 8);
    (0, 4, 8); (2, 4, 6) ]%nat.

(** [enumerate(board)] *)
Definition enumerate (b : board) : list (nat * cell) :=
  combine (seq 0 (length b)) b.

(** [[i for i,v in enumerate(board) if v == EMPTY]] *)
Definition available_moves (b : board) : list nat :=
  map fst (filter (fun iv => cell_eqb (snd iv) EMPTY) (enumerate b)).

(** The chained comparison [board[a] == board[b] == board[c] != EMPTY]:
    operands are evaluated left to right, each once, and evaluation stops at
    the first comparison that fails. *)
Definition line_won (b : board) (l : nat * nat * nat) : res bool :=
  let '(i, j, k) := l in
  rbind (get b i) (fun x =>
  rbind (get b j) (fun y =>
  if cell_eqb x y then
    rbind (get b k) (fun z =>
    Ok (cell_eqb y z && negb (cell_eqb z EMPTY)))
  else Ok false)).

(** The [for a,b,c in WIN_LINES] loop of [winner] followed by the draw test. *)
Fixpoint winner_from (lines : list (nat * nat * nat)) (b : board)
  : res (option result) :=
  match lines with
  | [] =>
      if existsb (fun v => cell_eqb v EMPTY) b then Ok None else Ok (Some Draw)
  | l :: rest =>
      rbind (line_won b l) (fun won =>
      if won then rbind (get b (fst (fst l))) (fun x => Ok (Some (Win x)))
      else winner_from rest b)
  end.

Definition winner (b : board) : res (option result) := winner_from WIN_LINES b.

Definition score_for (player : cell) (r : option result) : Z :=
  match r with
  | Some Draw | None => 0
  | Some (Win c) => if cell_eqb c player then 1 else -1
  end.

(** ** Search engine *)

(** [HUMAN if player == AI else AI] *)
Definition opponent (player : cell) : cell :=
  if cell_eqb player AI then HUMAN else AI.

Section Loops.

Local Open Scope board_scope.

(** The recursive call, as seen from the loops. *)
Variable rec : cell -> bool -> Z -> Z -> M (Z * option nat).

(** The [for m in available_moves(board)] loop of the maximizing branch;
    [moves] is what is left of the list the loop iterates over. *)
Fixpoint max_loop (player : cell) (moves : list nat) (alpha beta : Z)
         (max_eval : Z) (best_move : option nat) : M (Z * option nat) :=
  match moves with
  | [] => ret (max_eval, best_move)
  | m :: rest =>
      store m player ;;
      r <- rec (opponent player) false alpha beta ;;
      store m EMPTY ;;
      let eval_score := fst r in
      let '(max_eval, best_move) :=
        if eval_score >? max_eval then (eval_score, Some m)
        else (max_eval, best_move) in
      let alpha := Z.max alpha eval_score in
      if beta <=? alpha then ret (max_eval, best_move)
      else max_loop player rest alpha beta max_eval best_move
  end.

(** The loop of the minimizing branch. *)
Fixpoint min_loop (player : cell) (moves : list nat) (alpha beta : Z)
         (min_eval : Z) (best_move : option nat) : M (Z * option nat) :=
  match moves with
  | [] => ret (min_eval, best_move)
  | m :: rest =>
      store m player ;;
      r <- rec (opponent player) true alpha beta ;;
      store m EMPTY ;;
      let eval_score := fst r in
      let '(min_eval, best_move) :=
        if eval_score <? min_eval then (eval_score, Some m)
        else (min_eval, best_move) in
      let beta := Z.min beta eval_score in
      if beta <=? alpha then ret (min_eval, best_move)
      else min_loop player rest alpha beta min_eval best_move
  end.

End Loops.

Local Open Scope board_scope.

(** [minimax], with the depth of the recursion bounded by [fuel]. *)
Fixpoint minimax_fuel (fuel : nat) (player : cell) (maximizing : bool)
         (alpha beta : Z) : M (Z * option nat) :=
  match fuel with
  | O => fun _ => OutOfFuel
  | S n =>
      w <- inspect winner ;;
      match w with
      | Some _ => ret (score_for AI w, None)
      | None =>
          moves <- inspect (fun b => Ok (available_moves b)) ;;
          if maximizing then
            max_loop (minimax_fuel n) player moves alpha beta (-999) None
          else
            min_loop (minimax_fuel n) player moves alpha beta 999 None
      end
  end.

(** Every level of the recursion but possibly the first fills one more cell,
    so [length board + 2] levels are never used up. *)
Definition minimax (player : cell) (maximizing : bool) (alpha beta : Z)
  : M (Z * option nat) :=
  fun b => minimax_fuel (length b + 2) player maximizing alpha beta b.

(** ** Move-and-probability driver *)

(** The first [for m in moves] loop of [ai_move]; returns [outcomes]. *)
Fixpoint score_loop (moves : list nat) (outcomes : list Z) : M (list Z) :=
  match moves with
  | [] => ret outcomes
  | m :: rest =>
      store m AI ;;
      r <- minimax HUMAN false (-999) 999 ;;
      store m EMPTY ;;
      score_loop rest (outcomes ++ [fst r])
  end.

(** [outcomes.count(x)] *)
Definition count (x : Z) (l : list Z) : nat :=
  length (filter (Z.eqb x) l).

(** [max(outcomes)]: raises [ValueError] on the empty list. *)
Definition py_max (l : list Z) : res Z :=
  match l with
  | [] => Raise ValueError
  | x :: t => Ok (fold_left Z.max t x)
  end.

(** [outcomes.index(x)]: position of the first occurrence, [ValueError] when
    there is none. *)
Fixpoint py_index (x : Z) (l : list Z) : res nat :=
  match l with
  | [] => Raise ValueError
  | y :: t => if y =? x then Ok O else rbind (py_index x t) (fun i => Ok (S i))
  end.

(** [moves[i]] *)
Definition nth_move (moves : list nat) (i : nat) : res nat :=
  match nth_error moves i with
  | Some m => Ok m
  | None => Raise IndexError
  end.

(** Conversion of a (small) Python [int] to [float]. *)
Definition float_of_nat (n : nat) : float :=
  PrimFloat.of_uint63 (Uint63.of_Z (Z.of_nat n)).

(** [(wins + 0.5*draws) / total if total else 0] *)
Definition probability (outcomes : list Z) : float :=
  let total := length outcomes in
  let wins := count 1 outcomes in
  let draws := count 0 outcomes in
  match total with
  | O => 0%float
  | S _ => ((float_of_nat wins + 0.5 * float_of_nat draws) / float_of_nat total)%float
  end.

Definition ai_move : M (nat * float) :=
  moves <- inspect (fun b => Ok (available_moves b)) ;;
  outcomes <- score_loop moves [] ;;
  let prob := probability outcomes in
  best_score <- lift (py_max outcomes) ;;
  best_index <- lift (py_index best_score outcomes) ;;
  move <- lift (nth_move moves best_index) ;;
  ret (move, prob).

(** ** Sample runs *)

Definition empty_board : board := repeat EMPTY 9.

Example empty_board_moves :
  available_moves empty_board = [0; 1; 2; 3; 4; 5; 6; 7; 8]%nat.
Proof. reflexivity. Qed.

Example empty_board_search :
  minimax AI true (-999) 999 empty_board = Ok ((0, Some 0%nat), empty_board).
Proof. vm_compute. reflexivity. Qed.

(** ** Reference: exhaustive minimax without pruning

    The same search with the window and the cutoff taken out, on board values
    instead of the shared board: every candidate move of every position is
    examined, in ascending order, and the running best changes on a strict
    improvement only. *)

Section ExhaustiveLoop.

Variable value_of : board -> res (Z * option nat).

Fixpoint exhaustive_loop (maximizing : bool) (b : board) (player : cell)
         (moves : list nat) (best : Z) (best_move : option nat)
  : res (Z * option nat) :=
  match moves with
  | [] => Ok (best, best_move)
  | m :: rest =>
      rbind (value_of (upd b m player)) (fun r =>
      let v := fst r in
      if (if maximizing then v >? best else v <? best)
      then exhaustive_loop maximizing b player rest v (Some m)
      else exhaustive_loop maximizing b player rest best best_move)
  end.

End ExhaustiveLoop.

Fixpoint exhaustive_fuel (fuel : nat) (b : board) (player : cell)
         (maximizing : bool) : res (Z * option nat) :=
  match fuel with
  | O => OutOfFuel
  | S n =>
      rbind (winner b) (fun w =>
      match w with
      | Some _ => Ok (score_for AI w, None)
      | None =>
          exhaustive_loop
            (fun b' => exhaustive_fuel n b' (opponent player) (negb maximizing))
            maximizing b player (available_moves b)
            (if maximizing then -999 else 999) None
      end)
  end.

Definition exhaustive_minimax (b : board) (player : cell) (maximizing : bool)
  : res (Z * option nat) :=
  exhaustive_fuel (length b + 2) b player maximizing.

(** ** Vocabulary of the statements

    Pure views of the board and the predicates in which the lemmas and the
    stated properties are phrased. *)

Definition is_empty (v : cell) : bool := cell_eqb v EMPTY.

(** Number of empty cells. *)
Definition nempty (b : board) : nat := length (filter is_empty b).

(** Cell [i], for an index known to be in range. *)
Definition cell_at (b : board) (i : nat) : cell := nth i b EMPTY.

Definition line_in_range (b : board) (l : nat * nat * nat) : Prop :=
  let '(i, j, k) := l in
  (i < length b)%nat /\ (j < length b)%nat /\ (k < length b)%nat.

(** The three cells of [l] hold the same side. *)
Definition line_full (b : board) (l : nat * nat * nat) : bool :=
  let '(i, j, k) := l in
  cell_eqb (cell_at b i) (cell_at b j)
  && (cell_eqb (cell_at b j) (cell_at b k) && negb (cell_eqb (cell_at b k) EMPTY)).

(** Side [s] holds the three cells of line [l]. *)
Definition holds (b : board) (l : nat * nat * nat) (s : cell) : Prop :=
  let '(i, j, k) := l in
  s <> EMPTY /\
  nth_error b i = Some s /\ nth_error b j = Some s /\ nth_error b k = Some s.

(** What [winner] computes when no index is out of range. *)
Definition winner_value (lines : list (nat * nat * nat)) (b : board)
  : option result :=
  match find (line_full b) lines with
  | Some l => Some (Win (cell_at b (fst (fst l))))
  | None => if existsb (fun v => cell_eqb v EMPTY) b then None else Some Draw
  end.

(** No line of [WIN_LINES] is held by a side. *)
Definition no_line (b : board) : Prop :=
  forall l s, In l WIN_LINES -> ~ holds b l s.

(** Levels of recursion a position can need: one per empty cell, one for the
    terminal position, and one more when the side to move is [EMPTY] (the
    first level then writes [EMPTY] over [EMPTY]). *)
Definition depth (b : board) (p : cell) : nat :=
  (nempty b + (if cell_eqb p EMPTY then 2 else 1))%nat.

(** State of a loop after at least one candidate: a score in range and a
    chosen empty cell. *)
Definition picked (b : board) (v : Z) (mv : option nat) : Prop :=
  -1 <= v <= 1 /\ exists m, mv = Some m /\ nth_error b m = Some EMPTY.

(** What a call of the search returns with: a score in [{-1, 0, 1}]; no move
    at a terminal position, an empty cell otherwise. *)
Definition sound_result (b : board) (v : Z) (mv : option nat) : Prop :=
  -1 <= v <= 1 /\
  match winner_value WIN_LINES b with
  | Some _ => mv = None
  | None => exists m, mv = Some m /\ nth_error b m = Some EMPTY
  end.

(** A score [v] returned for the window [(a, be)] stands for the exhaustive
    value [V] as follows: at or below [a] it is an upper bound, at or above
    [be] a lower bound, and strictly inside the window it is exact. *)
Definition bounded (a be V v : Z) : Prop :=
  (v <= a -> V <= v) /\ (be <= v -> v <= V) /\ (a < v < be -> v = V).

(** The search, run for the opponent of [p] with window [(a, be)] on the board
    where [p] has played [m], returns the score [e] (and the board). *)
Definition evaluated (b : board) (p : cell) (mx : bool) (a be : Z)
           (m : nat) (e : Z) : Prop :=
  exists x, minimax (opponent p) mx a be (upd b m p) = Ok ((e, x), upd b m p).

(** The score [ai_move] records for candidate [m]. *)
Definition scored (b : board) (m : nat) (v : Z) : Prop :=
  evaluated b AI false (-999) 999 m v.

Definition in_range (v : Z) : Prop := -1 <= v <= 1.

Definition prob_expr (w d t : nat) : float :=
  ((float_of_nat w + 0.5 * float_of_nat d) / float_of_nat t)%float.

Definition unit_interval (x : float) : bool :=
  ((0 <=? x) && (x <=? 1))%float.

Definition prob_table_ok : bool :=
  forallb (fun t =>
    forallb (fun w =>
      forallb (fun d =>
        implb (w + d <=? t)%nat (unit_interval (prob_expr w d t)))
        (seq 0 10))
      (seq 0 10))
    (seq 1 9).

(** A game from a given board: the automated side plays the move [ai_move]
    returns, the opponent plays a reply of its choice among those [reply]
    allows, and the game stops as soon as [winner] reports an outcome. *)
Section Play.

Variable reply : board -> nat -> Prop.

(** [plays ai_turn b r]: a game from [b], with the automated side to move
    iff [ai_turn], can end with outcome [r]. *)
Inductive plays : bool -> board -> result -> Prop :=
| plays_over ai_turn b r :
    winner b = Ok (Some r) ->
    plays ai_turn b r
| plays_ai b m pr r :
    winner b = Ok None ->
    ai_move b = Ok ((m, pr), b) ->
    plays false (upd b m AI) r ->
    plays true b r
| plays_opponent b m r :
    winner b = Ok None ->
    reply b m ->
    plays true (upd b m HUMAN) r ->
    plays false b r.

End Play.

(** Any free cell. *)
Definition legal_reply (b : board) (m : nat) : Prop :=
  nth_error b m = Some EMPTY.

(** A free cell that is optimal for the opponent: the position it leads to
    has the score the search gives the current position with the opponent to
    move. *)
Definition optimal_reply (b : board) (m : nat) : Prop :=
  nth_error b m = Some EMPTY /\
  exists v x,
    minimax HUMAN false (-999) 999 b = Ok ((v, x), b)
    /\ evaluated b HUMAN true (-999) 999 m v.

(** The outcome is a draw or a win of the automated side. *)
Definition not_lost (r : result) : bool :=
  match r with
  | Draw | Win AI => true
  | Win _ => false
  end.

(** Exploration of every game in which the opponent plays any free cell. *)
Fixpoint never_loses (fuel : nat) (ai_turn : bool) (b : board) : bool :=
  match fuel with
  | O => false
  | S n =>
      match winner b with
      | Ok (Some r) => not_lost r
      | Ok None =>
          if ai_turn then
            match ai_move b with
            | Ok ((m, _), _) => never_loses n false (upd b m AI)
            | _ => false
            end
          else
            forallb (fun m => never_loses n true (upd b m HUMAN))
              (available_moves b)
      | _ => false
      end
  end.

(** The game in which the opponent plays the move the search returns for it,
    on the shared board: [move, _ = ai_move(board); board[move] = AI] for the
    automated side, [_, move = minimax(board, HUMAN, False, -999, 999);
    board[move] = HUMAN] for the opponent ([board[None]] is a [TypeError]),
    [winner(board)] before every move. *)
Fixpoint self_play (fuel : nat) (ai_turn : bool) : M result :=
  match fuel with
  | O => fun _ => OutOfFuel
  | S n =>
      w <- inspect winner ;;
      match w with
      | Some r => ret r
      | None =>
          if ai_turn then
            r <- ai_move ;;
            store (fst r) AI ;;
            self_play n false
          else
            r <- minimax HUMAN false (-999) 999 ;;
            match snd r with
            | Some m => store m HUMAN ;; self_play n true
            | None => lift (Raise TypeError)
            end
      end
  end.

(** A board on which both sides hold a line: the top row belongs to [HUMAN],
    the middle row to [AI]. *)
Definition double_win : board :=
  [HUMAN; HUMAN; HUMAN; AI; AI; AI; EMPTY; EMPTY; EMPTY].

(** Two calls of the same computation, one after the other, on the shared
    board. *)
Definition twice {A} (m : M A) : M (A * A) :=
  r1 <- m ;; r2 <- m ;; ret (r1, r2).

(** [trace] lists the candidates the maximizing loop examines on [b], from
    the first candidate on and in ascending order, each with the score its
    recursive call returns; that call sees [alpha] as the earlier scores left
    it, [max] of [a] and those scores. *)
Definition max_trace (b : board) (p : cell) (a be : Z)
           (trace : list (nat * Z)) : Prop :=
  (exists skipped, available_moves b = map fst trace ++ skipped)
  /\ forall pre m e post,
      trace = pre ++ (m, e) :: post ->
      evaluated b p false (fold_left Z.max (map snd pre) a) be m e.

(** The same for the minimizing loop, where the earlier scores lower [beta]. *)
Definition min_trace (b : board) (p : cell) (a be : Z)
           (trace : list (nat * Z)) : Prop :=
  (exists skipped, available_moves b = map fst trace ++ skipped)
  /\ forall pre m e post,
      trace = pre ++ (m, e) :: post ->
      evaluated b p true a (fold_left Z.min (map snd pre) be) m e.

(** A board without an empty cell (a drawn game). *)
Definition full_board : board :=
  [AI; HUMAN; AI; HUMAN; HUMAN; AI; HUMAN; AI; HUMAN].

(** ** Boards as values: cells, updates, empty cells *)

Lemma cell_eqb_eq (x y : cell) : cell_eqb x y = true <-> x = y.
Proof. destruct x, y; simpl; split; congruence. Qed.

Lemma cell_eqb_refl (x : cell) : cell_eqb x x = true.
Proof. now destruct x. Qed.

Lemma cell_eqb_neq (x y : cell) : cell_eqb x y = false <-> x <> y.
Proof. destruct x, y; simpl; split; congruence. Qed.

Lemma opponent_not_empty (p : cell) : opponent p <> EMPTY.
Proof. destruct p; discriminate. Qed.

Lemma upd_length (b : board) (i : nat) (v : cell) :
  length (upd b i v) = length b.
Proof.
  revert i; induction b as [|h t IH]; intros [|j]; simpl; auto.
Qed.

(** Writing a value and then the old value back restores the list. *)
Lemma upd_undo (b : board) (i : nat) (v old : cell) :
  nth_error b i = Some old -> upd (upd b i v) i old = b.
Proof.
  revert i; induction b as [|h t IH]; intros [|j] H; simpl in *;
    try discriminate.
  - congruence.
  - f_equal; auto.
Qed.

Lemma nempty_le_length (b : board) : (nempty b <= length b)%nat.
Proof. apply filter_length_le. Qed.

Lemma nempty_upd (b : board) (i : nat) (v : cell) :
  nth_error b i = Some EMPTY -> v <> EMPTY ->
  nempty b = S (nempty (upd b i v)).
Proof.
  unfold nempty.
  revert i; induction b as [|h t IH]; intros [|j] H Hv; simpl in *;
    try discriminate.
  - injection H as ->. simpl.
    apply cell_eqb_neq in Hv. unfold is_empty at 2. now rewrite Hv.
  - destruct (is_empty h); simpl; rewrite (IH j H Hv); auto.
Qed.

Lemma nempty_upd_empty (b : board) (i : nat) :
  nth_error b i = Some EMPTY -> upd b i EMPTY = b.
Proof.
  revert i; induction b as [|h t IH]; intros [|j] H; simpl in *;
    try discriminate.
  - congruence.
  - f_equal; auto.
Qed.

(** The candidate moves are the indices of the empty cells, in ascending
    order. *)
Lemma available_moves_seq_from (s : nat) (b : board) :
  map fst (filter (fun iv => cell_eqb (snd iv) EMPTY)
             (combine (seq s (length b)) b))
  = filter (fun i => match nth_error b (i - s) with
                     | Some EMPTY => true
                     | _ => false
                     end) (seq s (length b)).
Proof.
  revert s; induction b as [|h t IH]; intros s; simpl; auto.
  rewrite Nat.sub_diag. simpl.
  assert (E : filter (fun i => match nth_error (h :: t) (i - s) with
                               | Some EMPTY => true | _ => false end)
                (seq (S s) (length t))
              = filter (fun i => match nth_error t (i - S s) with
                                 | Some EMPTY => true | _ => false end)
                  (seq (S s) (length t))).
  { apply filter_ext_in. intros i Hi. apply in_seq in Hi.
    replace (i - s)%nat with (S (i - S s)) by lia. reflexivity. }
  destruct h; simpl; rewrite IH, E; reflexivity.
Qed.

Lemma available_moves_filter (b : board) :
  available_moves b
  = filter (fun i => match nth_error b i with
                     | Some EMPTY => true
                     | _ => false
                     end) (seq 0 (length b)).
Proof.
  unfold available_moves, enumerate. rewrite available_moves_seq_from.
  apply filter_ext. intros i. now rewrite Nat.sub_0_r.
Qed.

Lemma available_moves_spec (b : board) (m : nat) :
  In m (available_moves b) <-> nth_error b m = Some EMPTY.
Proof.
  rewrite available_moves_filter, filter_In, in_seq. split.
  - intros [_ H]. destruct (nth_error b m) as [[| |]|]; congruence.
  - intros H. split.
    + assert (nth_error b m <> None) by congruence.
      apply nth_error_Some in H0. lia.
    + now rewrite H.
Qed.

Lemma available_lt (b : board) (m : nat) :
  nth_error b m = Some EMPTY -> (m < length b)%nat.
Proof. intros H. apply nth_error_Some. congruence. Qed.

Lemma existsb_is_empty (b : board) :
  existsb (fun v => cell_eqb v EMPTY) b = true <-> available_moves b <> [].
Proof.
  rewrite existsb_exists. split.
  - intros (x & Hin & Hx). apply cell_eqb_eq in Hx. subst x.
    apply In_nth_error in Hin. destruct Hin as [m Hm].
    apply available_moves_spec in Hm. intros E. rewrite E in Hm. exact Hm.
  - intros H. destruct (available_moves b) as [|m l] eqn:E; [congruence|].
    assert (Hm : In m (available_moves b)) by (rewrite E; now left).
    apply available_moves_spec in Hm. exists EMPTY. split; auto.
    eapply nth_error_In; eauto.
Qed.

(** ** The outcome evaluator on boards of the proper size *)

Lemma get_in_range (b : board) (i : nat) :
  (i < length b)%nat -> get b i = Ok (cell_at b i).
Proof.
  intros H. unfold get, cell_at.
  destruct (nth_error b i) as [c|] eqn:E.
  - now rewrite (nth_error_nth _ _ _ E).
  - apply nth_error_None in E. lia.
Qed.

Lemma nth_error_cell_at (b : board) (i : nat) :
  (i < length b)%nat -> nth_error b i = Some (cell_at b i).
Proof.
  intros H. generalize (get_in_range b i H). unfold get.
  destruct (nth_error b i); congruence.
Qed.

Lemma line_won_in_range (b : board) (l : nat * nat * nat) :
  line_in_range b l -> line_won b l = Ok (line_full b l).
Proof.
  destruct l as [[i j] k]. intros (Hi & Hj & Hk). unfold line_won, line_full.
  rewrite (get_in_range b i Hi), (get_in_range b j Hj). simpl.
  destruct (cell_eqb (cell_at b i) (cell_at b j)); simpl; auto.
  now rewrite (get_in_range b k Hk).
Qed.

Lemma winner_from_in_range (lines : list (nat * nat * nat)) (b : board) :
  Forall (line_in_range b) lines ->
  winner_from lines b = Ok (winner_value lines b).
Proof.
  unfold winner_value.
  induction 1 as [|l rest Hl Hrest IH]; simpl.
  - now destruct (existsb _ b).
  - rewrite (line_won_in_range b l Hl). simpl.
    destruct (line_full b l); auto.
    destruct l as [[i j] k]. destruct Hl as (Hi & _). simpl.
    now rewrite (get_in_range b i Hi).
Qed.

Lemma WIN_LINES_in_range (b : board) :
  (9 <= length b)%nat -> Forall (line_in_range b) WIN_LINES.
Proof.
  intros H. unfold WIN_LINES.
  repeat (constructor; [simpl; lia|]). constructor.
Qed.

(** On a board of nine cells (or more) [winner] raises nothing. *)
Lemma winner_total (b : board) :
  (9 <= length b)%nat -> winner b = Ok (winner_value WIN_LINES b).
Proof.
  intros H. apply winner_from_in_range, WIN_LINES_in_range, H.
Qed.

Lemma line_full_holds (b : board) (l : nat * nat * nat) :
  line_in_range b l ->
  line_full b l = true <-> holds b l (cell_at b (fst (fst l))).
Proof.
  destruct l as [[i j] k]. intros (Hi & Hj & Hk). simpl.
  rewrite !andb_true_iff, negb_true_iff, !cell_eqb_eq, cell_eqb_neq.
  rewrite (nth_error_cell_at b i Hi), (nth_error_cell_at b j Hj),
    (nth_error_cell_at b k Hk).
  split.
  - intros (E1 & E2 & N). repeat split; congruence.
  - intros (N & _ & E1 & E2). injection E1 as E1. injection E2 as E2.
    repeat split; congruence.
Qed.

Lemma holds_line_full (b : board) (l : nat * nat * nat) (s : cell) :
  holds b l s -> line_full b l = true /\ cell_at b (fst (fst l)) = s.
Proof.
  destruct l as [[i j] k]. intros (N & Ei & Ej & Ek). simpl.
  unfold cell_at.
  rewrite (nth_error_nth _ _ _ Ei), (nth_error_nth _ _ _ Ej),
    (nth_error_nth _ _ _ Ek).
  rewrite cell_eqb_refl. apply cell_eqb_neq in N. rewrite N. auto.
Qed.

(** [find] returns the first element that passes the test. *)
Lemma find_first {A} (f : A -> bool) (l : list A) (x : A) :
  find f l = Some x <->
  exists pre post,
    l = pre ++ x :: post /\ f x = true /\ forall y, In y pre -> f y = false.
Proof.
  revert x; induction l as [|h t IH]; intros x; simpl.
  - split; [discriminate|]. intros (pre & post & E & _).
    destruct pre; discriminate.
  - destruct (f h) eqn:Fh.
    + split.
      * intros [= ->]. exists [], t. simpl. intuition.
      * intros ([|h' pre] & post & E & Fx & Hpre); simpl in E.
        -- congruence.
        -- injection E as -> _. rewrite (Hpre h') in Fh by now left.
           discriminate.
    + rewrite IH. split.
      * intros (pre & post & -> & Fx & Hpre). exists (h :: pre), post.
        simpl. repeat split; auto. intros y [<-|Hy]; auto.
      * intros ([|h' pre] & post & E & Fx & Hpre); simpl in E.
        -- injection E as -> _. congruence.
        -- injection E as -> ->. exists pre, post. repeat split; auto.
           intros y Hy. apply Hpre. now right.
Qed.

Lemma find_none_iff {A} (f : A -> bool) (l : list A) :
  find f l = None <-> forall y, In y l -> f y = false.
Proof.
  induction l as [|h t IH]; simpl.
  - split; auto. intros _ y [].
  - destruct (f h) eqn:Fh.
    + split; [discriminate|]. intros H. rewrite (H h) in Fh by now left.
      discriminate.
    + rewrite IH. split.
      * intros H y [<-|Hy]; auto.
      * intros H y Hy. apply H. now right.
Qed.

Lemma existsb_empty_In (b : board) :
  existsb (fun v => cell_eqb v EMPTY) b = true <-> In EMPTY b.
Proof.
  rewrite existsb_exists. split.
  - intros (x & Hx & E). apply cell_eqb_eq in E. now subst.
  - intros H. exists EMPTY. auto.
Qed.

Lemma no_line_find (b : board) :
  (9 <= length b)%nat ->
  find (line_full b) WIN_LINES = None <-> no_line b.
Proof.
  intros Hb. rewrite find_none_iff. unfold no_line.
  pose proof (WIN_LINES_in_range b Hb) as R. rewrite Forall_forall in R.
  split.
  - intros H l s Hl Hh. apply holds_line_full in Hh. destruct Hh as [F _].
    rewrite (H l Hl) in F. discriminate.
  - intros H l Hl. destruct (line_full b l) eqn:F; auto.
    apply (line_full_holds b l (R l Hl)) in F. now apply H in F.
Qed.

(** ** One iteration of the search loops

    On a candidate move [m] (an empty cell of the board [b]) whose recursive
    call returns the board as it received it, the body of either loop leaves
    [b] as it was: [board[m] = EMPTY] undoes [board[m] = player]. *)

Section LoopStep.

Variable rec : cell -> bool -> Z -> Z -> M (Z * option nat).

Lemma max_loop_cons p m rest a be me bm b e x :
  nth_error b m = Some EMPTY ->
  rec (opponent p) false a be (upd b m p) = Ok ((e, x), upd b m p) ->
  max_loop rec p (m :: rest) a be me bm b =
    if be <=? Z.max a e
    then Ok ((if e >? me then e else me, if e >? me then Some m else bm), b)
    else max_loop rec p rest (Z.max a e) be
           (if e >? me then e else me) (if e >? me then Some m else bm) b.
Proof.
  intros Hm Hrec. pose proof (available_lt b m Hm) as Hlt.
  simpl. unfold bind at 1. unfold store at 1.
  apply Nat.ltb_lt in Hlt. rewrite Hlt.
  unfold bind at 1. rewrite Hrec.
  unfold bind at 1. unfold store at 1.
  rewrite upd_length, Hlt, (upd_undo b m p EMPTY Hm). simpl.
  destruct (e >? me); destruct (be <=? Z.max a e); reflexivity.
Qed.

Lemma min_loop_cons p m rest a be me bm b e x :
  nth_error b m = Some EMPTY ->
  rec (opponent p) true a be (upd b m p) = Ok ((e, x), upd b m p) ->
  min_loop rec p (m :: rest) a be me bm b =
    if Z.min be e <=? a
    then Ok ((if e <? me then e else me, if e <? me then Some m else bm), b)
    else min_loop rec p rest a (Z.min be e)
           (if e <? me then e else me) (if e <? me then Some m else bm) b.
Proof.
  intros Hm Hrec. pose proof (available_lt b m Hm) as Hlt.
  simpl. unfold bind at 1. unfold store at 1.
  apply Nat.ltb_lt in Hlt. rewrite Hlt.
  unfold bind at 1. rewrite Hrec.
  unfold bind at 1. unfold store at 1.
  rewrite upd_length, Hlt, (upd_undo b m p EMPTY Hm). simpl.
  destruct (e <? me); destruct (Z.min be e <=? a); reflexivity.
Qed.

(** Whatever the recursive call does otherwise, if it hands the board back
    unchanged whenever it returns, so do the loops. *)
Hypothesis rec_frame :
  forall p mx a be b r b', rec p mx a be b = Ok (r, b') -> b' = b.

Lemma max_loop_frame p b moves :
  (forall m, In m moves -> nth_error b m = Some EMPTY) ->
  forall a be me bm r b',
    max_loop rec p moves a be me bm b = Ok (r, b') -> b' = b.
Proof.
  induction moves as [|m rest IH]; intros Hav a be me bm r b'.
  - simpl. unfold ret. congruence.
  - assert (Hm : nth_error b m = Some EMPTY) by (apply Hav; now left).
    destruct (rec (opponent p) false a be (upd b m p))
      as [[[e x] b1]| |] eqn:E.
    + assert (Eb : b1 = upd b m p) by (eapply rec_frame; exact E). subst b1.
      rewrite (max_loop_cons p m rest a be me bm b e x Hm E).
      destruct (be <=? Z.max a e).
      * congruence.
      * apply IH. intros; apply Hav; now right.
    + simpl. unfold bind at 1, store at 1.
      destruct (m <? length b)%nat; [|discriminate].
      unfold bind at 1. rewrite E. discriminate.
    + simpl. unfold bind at 1, store at 1.
      destruct (m <? length b)%nat; [|discriminate].
      unfold bind at 1. rewrite E. discriminate.
Qed.

Lemma min_loop_frame p b moves :
  (forall m, In m moves -> nth_error b m = Some EMPTY) ->
  forall a be me bm r b',
    min_loop rec p moves a be me bm b = Ok (r, b') -> b' = b.
Proof.
  induction moves as [|m rest IH]; intros Hav a be me bm r b'.
  - simpl. unfold ret. congruence.
  - assert (Hm : nth_error b m = Some EMPTY) by (apply Hav; now left).
    destruct (rec (opponent p) true a be (upd b m p))
      as [[[e x] b1]| |] eqn:E.
    + assert (Eb : b1 = upd b m p) by (eapply rec_frame; exact E). subst b1.
      rewrite (min_loop_cons p m rest a be me bm b e x Hm E).
      destruct (Z.min be e <=? a).
      * congruence.
      * apply IH. intros; apply Hav; now right.
    + simpl. unfold bind at 1, store at 1.
      destruct (m <? length b)%nat; [|discriminate].
      unfold bind at 1. rewrite E. discriminate.
    + simpl. unfold bind at 1, store at 1.
      destruct (m <? length b)%nat; [|discriminate].
      unfold bind at 1. rewrite E. discriminate.
Qed.

End LoopStep.

(** The search hands the board back as it was, on boards of any size: when
    it returns at all, every cell it wrote has been reset. *)
Lemma minimax_fuel_frame (n : nat) :
  forall p mx a be b r b',
    minimax_fuel n p mx a be b = Ok (r, b') -> b' = b.
Proof.
  induction n as [|n IH]; intros p mx a be b r b'; simpl.
  - discriminate.
  - unfold bind, inspect. destruct (winner b) as [[w|]| |]; try discriminate.
    + unfold ret. congruence.
    + destruct mx.
      * apply max_loop_frame; auto. intros m. apply available_moves_spec.
      * apply min_loop_frame; auto. intros m. apply available_moves_spec.
Qed.

Lemma minimax_frame p mx a be b r b' :
  minimax p mx a be b = Ok (r, b') -> b' = b.
Proof. apply minimax_fuel_frame. Qed.

(** ** The search returns, with a score in range and a legal move *)

Lemma depth_child (b : board) (p : cell) (m : nat) :
  nth_error b m = Some EMPTY ->
  (depth (upd b m p) (opponent p) < depth b p)%nat.
Proof.
  intros Hm. unfold depth.
  assert (E : cell_eqb (opponent p) EMPTY = false)
    by (apply cell_eqb_neq, opponent_not_empty).
  rewrite E. destruct (cell_eqb p EMPTY) eqn:P.
  - apply cell_eqb_eq in P. subst p. rewrite nempty_upd_empty by auto. lia.
  - apply cell_eqb_neq in P. rewrite (nempty_upd b m p Hm P). lia.
Qed.

Lemma depth_le_fuel (b : board) (p : cell) :
  (depth b p <= length b + 2)%nat.
Proof.
  unfold depth. pose proof (nempty_le_length b).
  destruct (cell_eqb p EMPTY); lia.
Qed.

Lemma score_for_range (p : cell) (w : option result) :
  -1 <= score_for p w <= 1.
Proof.
  destruct w as [[c|]|]; simpl; try lia. destruct (cell_eqb c p); lia.
Qed.

Lemma winner_value_none (b : board) :
  winner_value WIN_LINES b = None -> available_moves b <> [].
Proof.
  unfold winner_value. destruct (find _ _); [discriminate|].
  destruct (existsb _ b) eqn:E; [|discriminate].
  intros _. now apply existsb_is_empty.
Qed.

Section LoopSound.

Variable rec : cell -> bool -> Z -> Z -> M (Z * option nat).
Variable b : board.
Variable p : cell.

Hypothesis rec_ok :
  forall m mx a be,
    nth_error b m = Some EMPTY ->
    exists e x,
      rec (opponent p) mx a be (upd b m p) = Ok ((e, x), upd b m p)
      /\ -1 <= e <= 1.

Lemma max_loop_sound moves :
  (forall m, In m moves -> nth_error b m = Some EMPTY) ->
  forall a be me bm,
    (me = -999 /\ bm = None) \/ picked b me bm ->
    exists v mv,
      max_loop rec p moves a be me bm b = Ok ((v, mv), b)
      /\ (moves <> [] \/ picked b me bm -> picked b v mv).
Proof.
  induction moves as [|m rest IH]; intros Hav a be me bm Hst.
  - exists me, bm. split; [reflexivity|]. intros [H|H]; congruence.
  - assert (Hm : nth_error b m = Some EMPTY) by (apply Hav; now left).
    destruct (rec_ok m false a be Hm) as (e & x & E & He).
    rewrite (max_loop_cons rec p m rest a be me bm b e x Hm E).
    assert (Hst' : picked b (if e >? me then e else me)
                     (if e >? me then Some m else bm)).
    { destruct (Z.gtb_spec e me).
      - split; eauto.
      - destruct Hst as [[-> _]|Hpk]; [lia|exact Hpk]. }
    destruct (be <=? Z.max a e).
    + eauto.
    + destruct (IH (fun m' H => Hav m' (or_intror H))
                  (Z.max a e) be _ _ (or_intror Hst')) as (v & mv & R & Hp).
      exists v, mv. split; auto.
Qed.

Lemma min_loop_sound moves :
  (forall m, In m moves -> nth_error b m = Some EMPTY) ->
  forall a be me bm,
    (me = 999 /\ bm = None) \/ picked b me bm ->
    exists v mv,
      min_loop rec p moves a be me bm b = Ok ((v, mv), b)
      /\ (moves <> [] \/ picked b me bm -> picked b v mv).
Proof.
  induction moves as [|m rest IH]; intros Hav a be me bm Hst.
  - exists me, bm. split; [reflexivity|]. intros [H|H]; congruence.
  - assert (Hm : nth_error b m = Some EMPTY) by (apply Hav; now left).
    destruct (rec_ok m true a be Hm) as (e & x & E & He).
    rewrite (min_loop_cons rec p m rest a be me bm b e x Hm E).
    assert (Hst' : picked b (if e <? me then e else me)
                     (if e <? me then Some m else bm)).
    { destruct (Z.ltb_spec e me).
      - split; eauto.
      - destruct Hst as [[-> _]|Hpk]; [lia|exact Hpk]. }
    destruct (Z.min be e <=? a).
    + eauto.
    + destruct (IH (fun m' H => Hav m' (or_intror H))
                  a (Z.min be e) _ _ (or_intror Hst')) as (v & mv & R & Hp).
      exists v, mv. split; auto.
Qed.

End LoopSound.

Lemma minimax_fuel_sound (n : nat) :
  forall b p mx a be,
    (9 <= length b)%nat -> (depth b p <= n)%nat ->
    exists v mv,
      minimax_fuel n p mx a be b = Ok ((v, mv), b) /\ sound_result b v mv.
Proof.
  induction n as [|n IH]; intros b p mx a be Hb Hd.
  - unfold depth in Hd. destruct (cell_eqb p EMPTY); lia.
  - simpl. unfold bind at 1, inspect at 1. rewrite (winner_total b Hb).
    unfold sound_result.
    destruct (winner_value WIN_LINES b) as [w|] eqn:W.
    + eexists _, _. split; [reflexivity|]. split; auto.
      apply score_for_range.
    + unfold bind at 1, inspect at 1.
      assert (Hrec : forall m mx a be,
                 nth_error b m = Some EMPTY ->
                 exists e x,
                   minimax_fuel n (opponent p) mx a be (upd b m p)
                   = Ok ((e, x), upd b m p) /\ -1 <= e <= 1).
      { intros m mx' a' be' Hm.
        destruct (IH (upd b m p) (opponent p) mx' a' be') as (e & x & R & S).
        - now rewrite upd_length.
        - pose proof (depth_child b p m Hm). lia.
        - exists e, x. split; auto. apply S. }
      pose proof (winner_value_none b W) as Hne.
      assert (Hav : forall m, In m (available_moves b) ->
                          nth_error b m = Some EMPTY)
        by (intros m; apply available_moves_spec).
      destruct mx.
      * destruct (max_loop_sound _ b p Hrec (available_moves b) Hav
                    a be (-999) None) as (v & mv & R & Hp); auto.
        exists v, mv. split; auto. apply Hp; auto.
      * destruct (min_loop_sound _ b p Hrec (available_moves b) Hav
                    a be 999 None) as (v & mv & R & Hp); auto.
        exists v, mv. split; auto. apply Hp; auto.
Qed.

Lemma minimax_sound b p mx a be :
  (9 <= length b)%nat ->
  exists v mv, minimax p mx a be b = Ok ((v, mv), b) /\ sound_result b v mv.
Proof.
  intros Hb. apply minimax_fuel_sound; auto. apply depth_le_fuel.
Qed.

(** ** The exhaustive reference returns, with a score in range *)

Section ExhaustiveSound.

Variable value_of : board -> res (Z * option nat).
Variable b : board.
Variable p : cell.

Hypothesis value_ok :
  forall m, nth_error b m = Some EMPTY ->
    exists c y, value_of (upd b m p) = Ok (c, y) /\ -1 <= c <= 1.

Lemma exhaustive_loop_sound mx moves :
  (forall m, In m moves -> nth_error b m = Some EMPTY) ->
  forall best bm,
  exists V mV,
    exhaustive_loop value_of mx b p moves best bm = Ok (V, mV)
    /\ (if mx then best <= V else V <= best)
    /\ (-1 <= best <= 1
        \/ (moves <> [] /\ best = if mx then -999 else 999) ->
        -1 <= V <= 1).
Proof.
  induction moves as [|m rest IH]; intros Hav best bm.
  - exists best, bm. split; [reflexivity|]. split.
    + destruct mx; lia.
    + intros [H|[H _]]; [lia|congruence].
  - assert (Hm : nth_error b m = Some EMPTY) by (apply Hav; now left).
    destruct (value_ok m Hm) as (c & y & E & Hc).
    simpl. rewrite E. simpl.
    assert (Hrest : forall m', In m' rest -> nth_error b m' = Some EMPTY)
      by (intros; apply Hav; now right).
    destruct mx.
    + destruct (Z.gtb_spec c best).
      * destruct (IH Hrest c (Some m)) as (V & mV & R & Hle & Hr).
        exists V, mV. split; [exact R|]. split; [lia|].
        intros _. apply Hr. left. lia.
      * destruct (IH Hrest best bm) as (V & mV & R & Hle & Hr).
        exists V, mV. split; [exact R|]. split; [exact Hle|].
        intros [H'|[_ H']]; [|lia]. apply Hr. now left.
    + destruct (Z.ltb_spec c best).
      * destruct (IH Hrest c (Some m)) as (V & mV & R & Hle & Hr).
        exists V, mV. split; [exact R|]. split; [lia|].
        intros _. apply Hr. left. lia.
      * destruct (IH Hrest best bm) as (V & mV & R & Hle & Hr).
        exists V, mV. split; [exact R|]. split; [exact Hle|].
        intros [H'|[_ H']]; [|lia]. apply Hr. now left.
Qed.

End ExhaustiveSound.

Lemma exhaustive_fuel_sound (n : nat) :
  forall b p mx,
    (9 <= length b)%nat -> (depth b p <= n)%nat ->
    exists V mV, exhaustive_fuel n b p mx = Ok (V, mV) /\ -1 <= V <= 1.
Proof.
  induction n as [|n IH]; intros b p mx Hb Hd.
  - unfold depth in Hd. destruct (cell_eqb p EMPTY); lia.
  - simpl. rewrite (winner_total b Hb). simpl.
    destruct (winner_value WIN_LINES b) as [w|] eqn:W.
    + eexists _, _. split; [reflexivity|]. apply score_for_range.
    + pose proof (winner_value_none b W) as Hne.
      destruct (exhaustive_loop_sound
                  (fun b' => exhaustive_fuel n b' (opponent p) (negb mx)) b p)
        with (mx := mx) (moves := available_moves b)
             (best := if mx then -999 else 999) (bm := @None nat)
        as (V & mV & R & _ & Hr).
      * intros m Hm. apply IH.
        -- now rewrite upd_length.
        -- pose proof (depth_child b p m Hm). lia.
      * intros m. apply available_moves_spec.
      * exists V, mV. split; auto.
Qed.

(** ** Alpha-beta windows *)

Lemma gtb_max (e me : Z) : (if e >? me then e else me) = Z.max me e.
Proof. destruct (Z.gtb_spec e me); lia. Qed.

Lemma ltb_min (e me : Z) : (if e <? me then e else me) = Z.min me e.
Proof. destruct (Z.ltb_spec e me); lia. Qed.

Section LoopBounds.

Variable rec : cell -> bool -> Z -> Z -> M (Z * option nat).
Variable value_of : bool -> board -> res (Z * option nat).
Variable b : board.
Variable p : cell.

Hypothesis rec_ok :
  forall m mx a be,
    nth_error b m = Some EMPTY ->
    exists e x,
      rec (opponent p) mx a be (upd b m p) = Ok ((e, x), upd b m p)
      /\ -1 <= e <= 1.

Hypothesis value_ok :
  forall m mx, nth_error b m = Some EMPTY ->
    exists c y, value_of mx (upd b m p) = Ok (c, y) /\ -1 <= c <= 1.

Hypothesis rec_bounded :
  forall m mx a be e x c y,
    nth_error b m = Some EMPTY ->
    -999 <= a -> a < be -> be <= 999 ->
    rec (opponent p) mx a be (upd b m p) = Ok ((e, x), upd b m p) ->
    value_of mx (upd b m p) = Ok (c, y) ->
    bounded a be c e.

Lemma max_loop_bounded moves :
  (forall m, In m moves -> nth_error b m = Some EMPTY) ->
  forall a be me bm ME BM v mv b' V mV,
    -999 <= a -> a < be -> be <= 999 -> me <= a ->
    max_loop rec p moves a be me bm b = Ok ((v, mv), b') ->
    exhaustive_loop (value_of false) true b p moves ME BM = Ok (V, mV) ->
    me <= v /\ (v <= a -> V <= Z.max ME v) /\ (be <= v -> v <= V)
    /\ (a < v < be -> V = Z.max ME v).
Proof.
  induction moves as [|m rest IH];
    intros Hav a be me bm ME BM v mv b' V mV Ha Hab Hbe Hme R P.
  - simpl in R, P. unfold ret in R.
    injection R as <- _ _. injection P as <- _. lia.
  - assert (Hm : nth_error b m = Some EMPTY) by (apply Hav; now left).
    assert (Hrest : forall m', In m' rest -> nth_error b m' = Some EMPTY)
      by (intros; apply Hav; now right).
    destruct (rec_ok m false a be Hm) as (e & x & E & He).
    destruct (value_ok m false Hm) as (c & y & C & Hc).
    pose proof (rec_bounded m false a be e x c y Hm Ha Hab Hbe E C)
      as (B1 & B2 & B3).
    rewrite (max_loop_cons rec p m rest a be me bm b e x Hm E) in R.
    rewrite gtb_max in R.
    simpl in P. rewrite C in P. simpl in P.
    assert (P' : exists BM',
               exhaustive_loop (value_of false) true b p rest
                 (Z.max ME c) BM' = Ok (V, mV)).
    { destruct (Z.gtb_spec c ME).
      - exists (Some m). now replace (Z.max ME c) with c by lia.
      - exists BM. now replace (Z.max ME c) with ME by lia. }
    destruct P' as (BM' & P').
    destruct (exhaustive_loop_sound (value_of false) b p
                (fun m' H => value_ok m' false H) true rest Hrest
                (Z.max ME c) BM') as (V0 & mV0 & P0 & HV & _).
    rewrite P' in P0. injection P0 as <- <-.
    destruct (Z.leb_spec be (Z.max a e)).
    + injection R as <- _ _. lia.
    + destruct (IH Hrest (Z.max a e) be (Z.max me e)
                  (if e >? me then Some m else bm) (Z.max ME c) BM'
                  v mv b' V mV) as (I0 & I1 & I2 & I3); auto; lia.
Qed.

Lemma min_loop_bounded moves :
  (forall m, In m moves -> nth_error b m = Some EMPTY) ->
  forall a be me bm ME BM v mv b' V mV,
    -999 <= a -> a < be -> be <= 999 -> be <= me ->
    min_loop rec p moves a be me bm b = Ok ((v, mv), b') ->
    exhaustive_loop (value_of true) false b p moves ME BM = Ok (V, mV) ->
    v <= me /\ (be <= v -> Z.min ME v <= V) /\ (v <= a -> V <= v)
    /\ (a < v < be -> V = Z.min ME v).
Proof.
  induction moves as [|m rest IH];
    intros Hav a be me bm ME BM v mv b' V mV Ha Hab Hbe Hme R P.
  - simpl in R, P. unfold ret in R.
    injection R as <- _ _. injection P as <- _. lia.
  - assert (Hm : nth_error b m = Some EMPTY) by (apply Hav; now left).
    assert (Hrest : forall m', In m' rest -> nth_error b m' = Some EMPTY)
      by (intros; apply Hav; now right).
    destruct (rec_ok m true a be Hm) as (e & x & E & He).
    destruct (value_ok m true Hm) as (c & y & C & Hc).
    pose proof (rec_bounded m true a be e x c y Hm Ha Hab Hbe E C)
      as (B1 & B2 & B3).
    rewrite (min_loop_cons rec p m rest a be me bm b e x Hm E) in R.
    rewrite ltb_min in R.
    simpl in P. rewrite C in P. simpl in P.
    assert (P' : exists BM',
               exhaustive_loop (value_of true) false b p rest
                 (Z.min ME c) BM' = Ok (V, mV)).
    { destruct (Z.ltb_spec c ME).
      - exists (Some m). now replace (Z.min ME c) with c by lia.
      - exists BM. now replace (Z.min ME c) with ME by lia. }
    destruct P' as (BM' & P').
    destruct (exhaustive_loop_sound (value_of true) b p
                (fun m' H => value_ok m' true H) false rest Hrest
                (Z.min ME c) BM') as (V0 & mV0 & P0 & HV & _).
    rewrite P' in P0. injection P0 as <- <-.
    destruct (Z.leb_spec (Z.min be e) a).
    + injection R as <- _ _. lia.
    + destruct (IH Hrest a (Z.min be e) (Z.min me e)
                  (if e <? me then Some m else bm) (Z.min ME c) BM'
                  v mv b' V mV) as (I0 & I1 & I2 & I3); auto; lia.
Qed.

(** With nothing to cut against ([be = 999], and [a] equal to the running
    best), the loop takes the same decisions as the exhaustive one. *)
Lemma max_loop_root moves :
  (forall m, In m moves -> nth_error b m = Some EMPTY) ->
  forall me bm r b' r',
    -999 <= me <= 1 ->
    max_loop rec p moves me 999 me bm b = Ok (r, b') ->
    exhaustive_loop (value_of false) true b p moves me bm = Ok r' ->
    r = r'.
Proof.
  induction moves as [|m rest IH]; intros Hav me bm r b' r' Hme R P.
  - simpl in R, P. unfold ret in R. congruence.
  - assert (Hm : nth_error b m = Some EMPTY) by (apply Hav; now left).
    assert (Hrest : forall m', In m' rest -> nth_error b m' = Some EMPTY)
      by (intros; apply Hav; now right).
    destruct (rec_ok m false me 999 Hm) as (e & x & E & He).
    destruct (value_ok m false Hm) as (c & y & C & Hc).
    destruct (rec_bounded m false me 999 e x c y Hm) as (B1 & B2 & B3);
      auto; try lia.
    rewrite (max_loop_cons rec p m rest me 999 me bm b e x Hm E) in R.
    simpl in P. rewrite C in P. simpl in P.
    destruct (Z.leb_spec 999 (Z.max me e)); [lia|].
    destruct (Z.gtb_spec e me), (Z.gtb_spec c me); try lia.
    + replace (Z.max me e) with e in R by lia.
      assert (e = c) by lia. subst c.
      apply (IH Hrest e (Some m) r b' r'); auto. lia.
    + replace (Z.max me e) with me in R by lia.
      apply (IH Hrest me bm r b' r'); auto.
Qed.

Lemma min_loop_root moves :
  (forall m, In m moves -> nth_error b m = Some EMPTY) ->
  forall me bm r b' r',
    -1 <= me <= 999 ->
    min_loop rec p moves (-999) me me bm b = Ok (r, b') ->
    exhaustive_loop (value_of true) false b p moves me bm = Ok r' ->
    r = r'.
Proof.
  induction moves as [|m rest IH]; intros Hav me bm r b' r' Hme R P.
  - simpl in R, P. unfold ret in R. congruence.
  - assert (Hm : nth_error b m = Some EMPTY) by (apply Hav; now left).
    assert (Hrest : forall m', In m' rest -> nth_error b m' = Some EMPTY)
      by (intros; apply Hav; now right).
    destruct (rec_ok m true (-999) me Hm) as (e & x & E & He).
    destruct (value_ok m true Hm) as (c & y & C & Hc).
    destruct (rec_bounded m true (-999) me e x c y Hm) as (B1 & B2 & B3);
      auto; try lia.
    rewrite (min_loop_cons rec p m rest (-999) me me bm b e x Hm E) in R.
    simpl in P. rewrite C in P. simpl in P.
    destruct (Z.leb_spec (Z.min me e) (-999)); [lia|].
    destruct (Z.ltb_spec e me), (Z.ltb_spec c me); try lia.
    + replace (Z.min me e) with e in R by lia.
      assert (e = c) by lia. subst c.
      apply (IH Hrest e (Some m) r b' r'); auto. lia.
    + replace (Z.min me e) with me in R by lia.
      apply (IH Hrest me bm r b' r'); auto.
Qed.

End LoopBounds.

(** The score of a search with a proper window inside [[-999, 999]] is
    [bounded] by the exhaustive value of the position. *)
Lemma minimax_fuel_bounded (n : nat) :
  forall b p mx a be v mv b' V mV,
    (9 <= length b)%nat -> (depth b p <= n)%nat ->
    -999 <= a -> a < be -> be <= 999 ->
    minimax_fuel n p mx a be b = Ok ((v, mv), b') ->
    exhaustive_fuel n b p mx = Ok (V, mV) ->
    bounded a be V v.
Proof.
  induction n as [|n IH]; intros b p mx a be v mv b' V mV Hb Hd Ha Hab Hbe R P.
  - discriminate.
  - simpl in R, P. unfold bind at 1, inspect at 1 in R.
    rewrite (winner_total b Hb) in R, P. simpl in P.
    destruct (winner_value WIN_LINES b) as [w|] eqn:W.
    + unfold ret in R. injection R as <- _ _. injection P as <- _.
      unfold bounded. lia.
    + unfold bind at 1, inspect at 1 in R.
      assert (Hav : forall m, In m (available_moves b) ->
                          nth_error b m = Some EMPTY)
        by (intros m; apply available_moves_spec).
      assert (Hch : forall m, nth_error b m = Some EMPTY ->
                  (9 <= length (upd b m p))%nat
                  /\ (depth (upd b m p) (opponent p) <= n)%nat).
      { intros m Hm. rewrite upd_length.
        pose proof (depth_child b p m Hm). lia. }
      assert (Hrec : forall m mx a be,
                 nth_error b m = Some EMPTY ->
                 exists e x,
                   minimax_fuel n (opponent p) mx a be (upd b m p)
                   = Ok ((e, x), upd b m p) /\ -1 <= e <= 1).
      { intros m mx' a' be' Hm. destruct (Hch m Hm) as [H9 Hdm].
        destruct (minimax_fuel_sound n (upd b m p) (opponent p) mx' a' be'
                    H9 Hdm) as (e & x & R' & S).
        exists e, x. split; auto. apply S. }
      assert (Hval : forall m mx, nth_error b m = Some EMPTY ->
                 exists c y,
                   exhaustive_fuel n (upd b m p) (opponent p) mx = Ok (c, y)
                   /\ -1 <= c <= 1).
      { intros m mx' Hm. destruct (Hch m Hm) as [H9 Hdm].
        apply exhaustive_fuel_sound; auto. }
      assert (Hbd : forall m mx a be e x c y,
                 nth_error b m = Some EMPTY ->
                 -999 <= a -> a < be -> be <= 999 ->
                 minimax_fuel n (opponent p) mx a be (upd b m p)
                 = Ok ((e, x), upd b m p) ->
                 exhaustive_fuel n (upd b m p) (opponent p) mx = Ok (c, y) ->
                 bounded a be c e).
      { intros m mx' a' be' e x c y Hm Ha' Hab' Hbe' R' P'.
        destruct (Hch m Hm) as [H9 Hdm].
        eapply IH; eauto. }
      destruct mx; simpl in P.
      * destruct (max_loop_bounded (minimax_fuel n)
                    (fun mx b' => exhaustive_fuel n b' (opponent p) mx)
                    b p Hrec Hval Hbd (available_moves b) Hav
                    a be (-999) None (-999) None v mv b' V mV)
          as (I0 & I1 & I2 & I3); auto; try lia.
        unfold bounded. lia.
      * destruct (min_loop_bounded (minimax_fuel n)
                    (fun mx b' => exhaustive_fuel n b' (opponent p) mx)
                    b p Hrec Hval Hbd (available_moves b) Hav
                    a be 999 None 999 None v mv b' V mV)
          as (I0 & I1 & I2 & I3); auto; try lia.
        unfold bounded. lia.
Qed.

(** With the full window the search and the exhaustive reference return the
    same score and the same move. *)
Lemma minimax_fuel_exact (n : nat) (b : board) (p : cell) (mx : bool) :
  (9 <= length b)%nat -> (depth b p <= n)%nat ->
  exists r,
    minimax_fuel n p mx (-999) 999 b = Ok (r, b)
    /\ exhaustive_fuel n b p mx = Ok r.
Proof.
  intros Hb Hd.
  destruct (minimax_fuel_sound n b p mx (-999) 999 Hb Hd) as (v & mv & R & _).
  destruct (exhaustive_fuel_sound n b p mx Hb Hd) as (V & mV & P & _).
  exists (v, mv). split; auto. rewrite P. f_equal. symmetry.
  destruct n as [|n]; [discriminate|].
  simpl in R, P. unfold bind at 1, inspect at 1 in R.
  rewrite (winner_total b Hb) in R, P. simpl in P.
  destruct (winner_value WIN_LINES b) as [w|] eqn:W.
  - unfold ret in R. congruence.
  - unfold bind at 1, inspect at 1 in R.
    assert (Hav : forall m, In m (available_moves b) ->
                        nth_error b m = Some EMPTY)
      by (intros m; apply available_moves_spec).
    assert (Hch : forall m, nth_error b m = Some EMPTY ->
                (9 <= length (upd b m p))%nat
                /\ (depth (upd b m p) (opponent p) <= n)%nat).
    { intros m Hm. rewrite upd_length.
      pose proof (depth_child b p m Hm). lia. }
    assert (Hrec : forall m mx a be,
               nth_error b m = Some EMPTY ->
               exists e x,
                 minimax_fuel n (opponent p) mx a be (upd b m p)
                 = Ok ((e, x), upd b m p) /\ -1 <= e <= 1).
    { intros m mx' a' be' Hm. destruct (Hch m Hm) as [H9 Hdm].
      destruct (minimax_fuel_sound n (upd b m p) (opponent p) mx' a' be'
                  H9 Hdm) as (e & x & R' & S).
      exists e, x. split; auto. apply S. }
    assert (Hval : forall m mx, nth_error b m = Some EMPTY ->
               exists c y,
                 exhaustive_fuel n (upd b m p) (opponent p) mx = Ok (c, y)
                 /\ -1 <= c <= 1).
    { intros m mx' Hm. destruct (Hch m Hm) as [H9 Hdm].
      apply exhaustive_fuel_sound; auto. }
    assert (Hbd : forall m mx a be e x c y,
               nth_error b m = Some EMPTY ->
               -999 <= a -> a < be -> be <= 999 ->
               minimax_fuel n (opponent p) mx a be (upd b m p)
               = Ok ((e, x), upd b m p) ->
               exhaustive_fuel n (upd b m p) (opponent p) mx = Ok (c, y) ->
               bounded a be c e).
    { intros m mx' a' be' e x c y Hm Ha' Hab' Hbe' R' P'.
      destruct (Hch m Hm) as [H9 Hdm].
      eapply minimax_fuel_bounded; eauto. }
    destruct mx; simpl in P.
    + eapply (max_loop_root (minimax_fuel n)
                (fun mx b' => exhaustive_fuel n b' (opponent p) mx)
                b p Hrec Hval Hbd (available_moves b) Hav); eauto. lia.
    + eapply (min_loop_root (minimax_fuel n)
                (fun mx b' => exhaustive_fuel n b' (opponent p) mx)
                b p Hrec Hval Hbd (available_moves b) Hav); eauto. lia.
Qed.

(** ** The recursion budget does not matter once it is large enough *)

Lemma exhaustive_loop_ext (f g : board -> res (Z * option nat)) mx b p moves :
  (forall m, In m moves -> f (upd b m p) = g (upd b m p)) ->
  forall best bm,
    exhaustive_loop f mx b p moves best bm
    = exhaustive_loop g mx b p moves best bm.
Proof.
  induction moves as [|m rest IH]; intros H best bm; simpl; auto.
  rewrite (H m) by now left.
  destruct (g (upd b m p)) as [r| |]; simpl; auto.
  destruct (if mx then fst r >? best else fst r <? best);
    apply IH; intros; apply H; now right.
Qed.

Lemma exhaustive_fuel_irrelevant (n : nat) :
  forall n' b p mx,
    (9 <= length b)%nat -> (depth b p <= n)%nat -> (depth b p <= n')%nat ->
    exhaustive_fuel n b p mx = exhaustive_fuel n' b p mx.
Proof.
  induction n as [|n IH]; intros n' b p mx Hb Hn Hn'.
  - unfold depth in Hn. destruct (cell_eqb p EMPTY); lia.
  - destruct n' as [|n'].
    + unfold depth in Hn'. destruct (cell_eqb p EMPTY); lia.
    + simpl. rewrite (winner_total b Hb). simpl.
      destruct (winner_value WIN_LINES b); auto.
      apply exhaustive_loop_ext. intros m Hm.
      apply available_moves_spec in Hm.
      pose proof (depth_child b p m Hm).
      apply IH; rewrite ?upd_length; lia.
Qed.

Section LoopExt.

Variables rec rec' : cell -> bool -> Z -> Z -> M (Z * option nat).
Variable b : board.
Variable p : cell.

Hypothesis rec_ok :
  forall m mx a be,
    nth_error b m = Some EMPTY ->
    exists e x,
      rec (opponent p) mx a be (upd b m p) = Ok ((e, x), upd b m p)
      /\ -1 <= e <= 1.

Hypothesis rec_same :
  forall m mx a be,
    nth_error b m = Some EMPTY ->
    rec (opponent p) mx a be (upd b m p)
    = rec' (opponent p) mx a be (upd b m p).

Lemma max_loop_ext moves :
  (forall m, In m moves -> nth_error b m = Some EMPTY) ->
  forall a be me bm,
    max_loop rec p moves a be me bm b = max_loop rec' p moves a be me bm b.
Proof.
  induction moves as [|m rest IH]; intros Hav a be me bm; auto.
  assert (Hm : nth_error b m = Some EMPTY) by (apply Hav; now left).
  destruct (rec_ok m false a be Hm) as (e & x & E & _).
  pose proof E as E'. rewrite (rec_same m false a be Hm) in E'.
  rewrite (max_loop_cons rec p m rest a be me bm b e x Hm E).
  rewrite (max_loop_cons rec' p m rest a be me bm b e x Hm E').
  destruct (be <=? Z.max a e); auto.
  apply IH. intros; apply Hav; now right.
Qed.

Lemma min_loop_ext moves :
  (forall m, In m moves -> nth_error b m = Some EMPTY) ->
  forall a be me bm,
    min_loop rec p moves a be me bm b = min_loop rec' p moves a be me bm b.
Proof.
  induction moves as [|m rest IH]; intros Hav a be me bm; auto.
  assert (Hm : nth_error b m = Some EMPTY) by (apply Hav; now left).
  destruct (rec_ok m true a be Hm) as (e & x & E & _).
  pose proof E as E'. rewrite (rec_same m true a be Hm) in E'.
  rewrite (min_loop_cons rec p m rest a be me bm b e x Hm E).
  rewrite (min_loop_cons rec' p m rest a be me bm b e x Hm E').
  destruct (Z.min be e <=? a); auto.
  apply IH. intros; apply Hav; now right.
Qed.

End LoopExt.

Lemma minimax_fuel_irrelevant (n : nat) :
  forall n' b p mx a be,
    (9 <= length b)%nat -> (depth b p <= n)%nat -> (depth b p <= n')%nat ->
    minimax_fuel n p mx a be b = minimax_fuel n' p mx a be b.
Proof.
  induction n as [|n IH]; intros n' b p mx a be Hb Hn Hn'.
  - unfold depth in Hn. destruct (cell_eqb p EMPTY); lia.
  - destruct n' as [|n'].
    + unfold depth in Hn'. destruct (cell_eqb p EMPTY); lia.
    + simpl. unfold bind at 1 3, inspect at 1 3. rewrite (winner_total b Hb).
      destruct (winner_value WIN_LINES b); auto.
      unfold bind at 1 2, inspect at 1 2.
      assert (Hav : forall m, In m (available_moves b) ->
                          nth_error b m = Some EMPTY)
        by (intros m; apply available_moves_spec).
      assert (Hrec : forall m mx a be,
                 nth_error b m = Some EMPTY ->
                 exists e x,
                   minimax_fuel n (opponent p) mx a be (upd b m p)
                   = Ok ((e, x), upd b m p) /\ -1 <= e <= 1).
      { intros m mx' a' be' Hm. pose proof (depth_child b p m Hm).
        destruct (minimax_fuel_sound n (upd b m p) (opponent p) mx' a' be')
          as (e & x & R' & S); rewrite ?upd_length; try lia.
        exists e, x. split; auto. apply S. }
      assert (Hsame : forall m mx a be,
                 nth_error b m = Some EMPTY ->
                 minimax_fuel n (opponent p) mx a be (upd b m p)
                 = minimax_fuel n' (opponent p) mx a be (upd b m p)).
      { intros m mx' a' be' Hm. pose proof (depth_child b p m Hm).
        apply IH; rewrite ?upd_length; lia. }
      destruct mx.
      * apply max_loop_ext; auto.
      * apply min_loop_ext; auto.
Qed.

(** The recursive call made by a loop, expressed with [minimax] itself. *)
Lemma minimax_fuel_child (n : nat) b p m mx a be :
  (9 <= length b)%nat -> (depth b p <= S n)%nat ->
  nth_error b m = Some EMPTY ->
  minimax_fuel n (opponent p) mx a be (upd b m p)
  = minimax (opponent p) mx a be (upd b m p).
Proof.
  intros Hb Hd Hm. unfold minimax. pose proof (depth_child b p m Hm).
  pose proof (depth_le_fuel b p).
  apply minimax_fuel_irrelevant; rewrite ?upd_length; lia.
Qed.

(** ** Candidate moves come in ascending order *)

Lemma filter_seq_split (f : nat -> bool) (n : nat) :
  forall s pre m post,
    filter f (seq s n) = pre ++ m :: post ->
    (forall x, In x pre -> (x < m)%nat) /\ (forall x, In x post -> (m < x)%nat).
Proof.
  induction n as [|n IH]; intros s pre m post E; simpl in E.
  - destruct pre; discriminate.
  - assert (Hge : forall x l1 l2,
               filter f (seq (S s) n) = l1 ++ x :: l2 -> (s < x)%nat).
    { intros x l1 l2 E'.
      assert (Hin : In x (filter f (seq (S s) n)))
        by (rewrite E'; apply in_elt).
      apply filter_In in Hin. destruct Hin as [Hin _].
      apply in_seq in Hin. lia. }
    destruct (f s).
    + destruct pre as [|h pre]; simpl in E; injection E as <- E.
      * split; [intros x []|]. intros x Hx.
        apply in_split in Hx. destruct Hx as (l1 & l2 & ->).
        rewrite E in *. eapply Hge; eauto.
      * destruct (IH _ _ _ _ E) as [H1 H2]. split; auto.
        intros x [<-|Hx]; auto. eapply Hge; eauto.
    + eapply IH; eauto.
Qed.

Lemma available_moves_split (b : board) pre m post :
  available_moves b = pre ++ m :: post ->
  (forall x, In x pre -> (x < m)%nat) /\ (forall x, In x post -> (m < x)%nat).
Proof. rewrite available_moves_filter. apply filter_seq_split. Qed.

(** ** The driver *)

Lemma score_loop_spec (b : board) :
  (9 <= length b)%nat ->
  forall moves acc,
    (forall m, In m moves -> nth_error b m = Some EMPTY) ->
    exists outs,
      score_loop moves acc b = Ok (acc ++ outs, b)
      /\ Forall2 (scored b) moves outs
      /\ Forall in_range outs.
Proof.
  intros Hb. induction moves as [|m rest IH]; intros acc Hav.
  - exists []. rewrite app_nil_r. repeat split; constructor.
  - assert (Hm : nth_error b m = Some EMPTY) by (apply Hav; now left).
    pose proof (available_lt b m Hm) as Hlt. apply Nat.ltb_lt in Hlt.
    destruct (minimax_sound (upd b m AI) HUMAN false (-999) 999)
      as (v & x & R & Hv & _); [now rewrite upd_length|].
    destruct (IH (acc ++ [v])) as (outs & L & F2 & Fr);
      [intros; apply Hav; now right|].
    exists (v :: outs). split; [|split].
    + simpl. unfold bind at 1, store at 1. rewrite Hlt.
      unfold bind at 1. rewrite R.
      unfold bind at 1, store at 1.
      rewrite upd_length, Hlt, (upd_undo b m AI EMPTY Hm). simpl.
      rewrite L, <- app_assoc. reflexivity.
    + constructor; auto. exists x. exact R.
    + constructor; auto.
Qed.

Lemma fold_left_max_spec (l : list Z) :
  forall x,
    x <= fold_left Z.max l x
    /\ (forall y, In y l -> y <= fold_left Z.max l x)
    /\ (fold_left Z.max l x = x \/ In (fold_left Z.max l x) l).
Proof.
  induction l as [|h t IH]; intros x; simpl.
  - split; [lia|]. split; [intros y []|now left].
  - destruct (IH (Z.max x h)) as (H1 & H2 & H3). split; [lia|]. split.
    + intros y [<-|Hy]; [lia|auto].
    + destruct H3 as [H3|H3]; [|now right; right].
      rewrite H3. destruct (Z.max_spec x h) as [[_ ->]|[_ ->]]; auto.
Qed.

Lemma py_max_spec (l : list Z) :
  l <> [] ->
  exists best, py_max l = Ok best /\ In best l /\ forall y, In y l -> y <= best.
Proof.
  destruct l as [|x t]; [congruence|]. intros _.
  destruct (fold_left_max_spec t x) as (H1 & H2 & H3).
  exists (fold_left Z.max t x). split; [reflexivity|]. split.
  - destruct H3 as [->|H3]; [now left|now right].
  - intros y [<-|Hy]; auto.
Qed.

Lemma py_index_spec (x : Z) (l : list Z) :
  In x l ->
  exists pre post,
    l = pre ++ x :: post /\ ~ In x pre /\ py_index x l = Ok (length pre).
Proof.
  induction l as [|h t IH]; intros Hin; [destruct Hin|].
  simpl. destruct (Z.eqb_spec h x) as [->|Hne].
  - exists [], t. simpl. auto.
  - destruct Hin as [E|Hin]; [congruence|].
    destruct (IH Hin) as (pre & post & -> & Hn & R).
    exists (h :: pre), post. simpl. rewrite R. simpl.
    repeat split; auto. intros [E|Hp]; auto.
Qed.

Lemma nth_move_middle (pre : list nat) m post :
  nth_move (pre ++ m :: post) (length pre) = Ok m.
Proof.
  unfold nth_move. rewrite nth_error_app2 by lia.
  now rewrite Nat.sub_diag.
Qed.

Lemma Forall2_middle {A B} (R : A -> B -> Prop) l pre y post :
  Forall2 R l (pre ++ y :: post) ->
  exists lpre x lpost,
    l = lpre ++ x :: lpost /\ length lpre = length pre
    /\ Forall2 R lpre pre /\ R x y /\ Forall2 R lpost post.
Proof.
  intros H. apply Forall2_app_inv_r in H.
  destruct H as (lpre & l2 & F1 & F2 & ->).
  inversion F2 as [|x y' lpost post' Rxy F3]; subst.
  exists lpre, x, lpost. repeat split; auto.
  eapply Forall2_length; eauto.
Qed.

(** What [ai_move] does on a board with a free cell: it records one score per
    candidate, takes the first position of the highest score, and returns the
    candidate at that position with the probability of the scores. *)
Lemma ai_move_spec (b : board) :
  (9 <= length b)%nat -> available_moves b <> [] ->
  exists outs pre v post mpre m mpost,
    Forall2 (scored b) (available_moves b) outs
    /\ Forall in_range outs
    /\ outs = pre ++ v :: post
    /\ available_moves b = mpre ++ m :: mpost
    /\ Forall2 (scored b) mpre pre
    /\ scored b m v
    /\ ~ In v pre
    /\ (forall y, In y outs -> y <= v)
    /\ ai_move b = Ok ((m, probability outs), b).
Proof.
  intros Hb Hne.
  destruct (score_loop_spec b Hb (available_moves b) [])
    as (outs & L & F2 & Fr); [intros m; apply available_moves_spec|].
  simpl in L.
  assert (Ho : outs <> []).
  { intros ->. inversion F2 as [E|]. congruence. }
  destruct (py_max_spec outs Ho) as (v & Pm & Hin & Hmax).
  destruct (py_index_spec v outs Hin) as (pre & post & E & Hn & Pi).
  pose proof F2 as F2'. rewrite E in F2'.
  apply Forall2_middle in F2'.
  destruct F2' as (mpre & m & mpost & Em & Hlen & Fp & Sm & _).
  exists outs, pre, v, post, mpre, m, mpost.
  repeat (split; [assumption|]).
  unfold ai_move. unfold bind at 1, inspect at 1.
  unfold bind at 1. rewrite L.
  unfold bind at 1, lift at 1, inspect at 1. rewrite Pm.
  unfold bind at 1, lift at 1, inspect at 1. rewrite Pi.
  unfold bind at 1, lift at 1, inspect at 1.
  rewrite Em, <- Hlen, nth_move_middle. reflexivity.
Qed.

Lemma score_loop_frame moves :
  forall acc b r b', score_loop moves acc b = Ok (r, b') ->
    (forall m, In m moves -> nth_error b m = Some EMPTY) -> b' = b.
Proof.
  induction moves as [|m rest IH]; intros acc b r b' R Hav.
  - simpl in R. unfold ret in R. congruence.
  - assert (Hm : nth_error b m = Some EMPTY) by (apply Hav; now left).
    simpl in R. unfold bind at 1, store at 1 in R.
    destruct (m <? length b)%nat eqn:Hlt; [|discriminate].
    unfold bind at 1 in R.
    destruct (minimax HUMAN false (-999) 999 (upd b m AI))
      as [[[e x] b1]| |] eqn:E; try discriminate.
    apply minimax_frame in E. subst b1.
    unfold bind at 1, store at 1 in R.
    rewrite upd_length, Hlt, (upd_undo b m AI EMPTY Hm) in R.
    eapply IH; eauto. intros; apply Hav; now right.
Qed.

(** [ai_move] hands the board back as it was, on boards of any size. *)
Lemma ai_move_frame b r b' : ai_move b = Ok (r, b') -> b' = b.
Proof.
  unfold ai_move. unfold bind at 1, inspect at 1. unfold bind at 1.
  destruct (score_loop (available_moves b) [] b) as [[outs b1]| |] eqn:L;
    try discriminate.
  apply score_loop_frame in L; [|intros m; apply available_moves_spec].
  subst b1. unfold bind, lift, inspect, ret.
  destruct (py_max outs); try discriminate.
  destruct (py_index a outs); try discriminate.
  destruct (nth_move (available_moves b) a0); try discriminate.
  congruence.
Qed.

(** ** The probability figure *)

Lemma prob_expr_small (w d t : nat) :
  (1 <= t <= 9)%nat -> (w + d <= t)%nat ->
  unit_interval (prob_expr w d t) = true.
Proof.
  intros Ht Hwd.
  assert (T : prob_table_ok = true) by (vm_compute; reflexivity).
  unfold prob_table_ok in T.
  pose proof (proj1 (forallb_forall _ _) T t ltac:(apply in_seq; lia)) as T1.
  cbv beta in T1.
  pose proof (proj1 (forallb_forall _ _) T1 w ltac:(apply in_seq; lia)) as T2.
  cbv beta in T2.
  pose proof (proj1 (forallb_forall _ _) T2 d ltac:(apply in_seq; lia)) as T3.
  cbv beta in T3.
  apply Nat.leb_le in Hwd. rewrite Hwd in T3. exact T3.
Qed.

Lemma count_two (l : list Z) : (count 1 l + count 0 l <= length l)%nat.
Proof.
  unfold count. induction l as [|h t IH]; [simpl; lia|].
  cbn [filter].
  destruct (Z.eqb_spec 1 h), (Z.eqb_spec 0 h); cbn [length]; lia.
Qed.

Lemma probability_expr (l : list Z) :
  l <> [] -> probability l = prob_expr (count 1 l) (count 0 l) (length l).
Proof. destruct l; [congruence|reflexivity]. Qed.

Lemma available_moves_length (b : board) :
  (length (available_moves b) <= length b)%nat.
Proof.
  rewrite available_moves_filter.
  etransitivity; [apply filter_length_le|]. now rewrite length_seq.
Qed.

(** ** Which move a loop keeps

    The candidates a loop examines, each with the score its recursive call
    returned, form its trace.  The trace covers an initial segment of the
    candidates (all of them unless a cutoff ends the loop), each recursive
    call sees the window as the earlier scores left it, and the loop returns
    the first entry of the trace that carries the best score. *)

Section LoopTrace.

Variable rec : cell -> bool -> Z -> Z -> M (Z * option nat).
Variable b : board.
Variable p : cell.

Hypothesis rec_ok :
  forall m mx a be,
    nth_error b m = Some EMPTY ->
    exists e x,
      rec (opponent p) mx a be (upd b m p) = Ok ((e, x), upd b m p)
      /\ -1 <= e <= 1.

Lemma max_loop_trace moves :
  (forall m, In m moves -> nth_error b m = Some EMPTY) ->
  forall a be me bm,
  exists trace skipped v mv,
    moves = map fst trace ++ skipped
    /\ (forall pre m e post,
           trace = pre ++ (m, e) :: post ->
           exists x,
             rec (opponent p) false (fold_left Z.max (map snd pre) a) be
               (upd b m p) = Ok ((e, x), upd b m p))
    /\ (forall x, In x trace -> -1 <= snd x <= 1)
    /\ (skipped <> [] -> be <= fold_left Z.max (map snd trace) a)
    /\ max_loop rec p moves a be me bm b = Ok ((v, mv), b)
    /\ ((v = me /\ mv = bm /\ forall x, In x trace -> snd x <= me)
        \/ (me < v /\
            exists pre m post,
              trace = pre ++ (m, v) :: post /\ mv = Some m
              /\ (forall x, In x pre -> snd x < v)
              /\ (forall x, In x post -> snd x <= v))).
Proof.
  induction moves as [|m rest IH]; intros Hav a be me bm.
  - exists [], [], me, bm. split; [reflexivity|]. split.
    { intros [|? ?] ? ? ? E; discriminate. }
    split; [intros x []|]. split; [congruence|].
    split; [reflexivity|]. left. repeat split; auto. intros x [].
  - assert (Hm : nth_error b m = Some EMPTY) by (apply Hav; now left).
    assert (Hrest : forall m', In m' rest -> nth_error b m' = Some EMPTY)
      by (intros; apply Hav; now right).
    destruct (rec_ok m false a be Hm) as (e & x & E & He).
    rewrite (max_loop_cons rec p m rest a be me bm b e x Hm E).
    destruct (Z.leb_spec be (Z.max a e)) as [Hcut|Hcut].
    + exists [(m, e)], rest. eexists _, _.
      split; [reflexivity|]. split.
      { intros [|q pre] m0 e0 post E0; simpl in E0.
        - injection E0 as -> -> _. exists x. exact E.
        - injection E0 as _ E2. destruct pre; discriminate. }
      split; [intros ? [<-|[]]; exact He|].
      split; [intros _; exact Hcut|].
      split; [reflexivity|].
      destruct (Z.gtb_spec e me).
      * right. split; [lia|]. exists [], m, [].
        repeat split; auto; intros ? [].
      * left. repeat split; auto. intros ? [<-|[]]. simpl. lia.
    + destruct (IH Hrest (Z.max a e) be (if e >? me then e else me)
                  (if e >? me then Some m else bm))
        as (trace & skipped & v & mv & Em & Hev & Hrg & Hsk & R & Hres).
      exists ((m, e) :: trace), skipped, v, mv.
      split; [simpl; now rewrite Em|]. split.
      { intros [|q pre] m0 e0 post E0; simpl in E0.
        - injection E0 as -> -> _. exists x. exact E.
        - injection E0 as <- E2. simpl. eapply Hev; eauto. }
      split; [intros ? [<-|Hx]; [exact He|auto]|].
      split; [exact Hsk|]. split; [exact R|].
      destruct (Z.gtb_spec e me).
      * right.
        destruct Hres
          as [(-> & -> & Hle)|(Hlt & pre & m1 & post & -> & -> & Hp & Hq)].
        -- split; [lia|]. exists [], m, trace.
           repeat split; auto. intros ? [].
        -- split; [lia|]. exists ((m, e) :: pre), m1, post.
           repeat split; auto. intros ? [<-|Hx]; auto.
      * destruct Hres
          as [(-> & -> & Hle)|(Hlt & pre & m1 & post & -> & -> & Hp & Hq)].
        -- left. repeat split; auto. intros ? [<-|Hx]; auto.
        -- right. split; [lia|]. exists ((m, e) :: pre), m1, post.
           repeat split; auto. intros ? [<-|Hx]; auto. simpl. lia.
Qed.

Lemma min_loop_trace moves :
  (forall m, In m moves -> nth_error b m = Some EMPTY) ->
  forall a be me bm,
  exists trace skipped v mv,
    moves = map fst trace ++ skipped
    /\ (forall pre m e post,
           trace = pre ++ (m, e) :: post ->
           exists x,
             rec (opponent p) true a (fold_left Z.min (map snd pre) be)
               (upd b m p) = Ok ((e, x), upd b m p))
    /\ (forall x, In x trace -> -1 <= snd x <= 1)
    /\ (skipped <> [] -> fold_left Z.min (map snd trace) be <= a)
    /\ min_loop rec p moves a be me bm b = Ok ((v, mv), b)
    /\ ((v = me /\ mv = bm /\ forall x, In x trace -> me <= snd x)
        \/ (v < me /\
            exists pre m post,
              trace = pre ++ (m, v) :: post /\ mv = Some m
              /\ (forall x, In x pre -> v < snd x)
              /\ (forall x, In x post -> v <= snd x))).
Proof.
  induction moves as [|m rest IH]; intros Hav a be me bm.
  - exists [], [], me, bm. split; [reflexivity|]. split.
    { intros [|? ?] ? ? ? E; discriminate. }
    split; [intros x []|]. split; [congruence|].
    split; [reflexivity|]. left. repeat split; auto. intros x [].
  - assert (Hm : nth_error b m = Some EMPTY) by (apply Hav; now left).
    assert (Hrest : forall m', In m' rest -> nth_error b m' = Some EMPTY)
      by (intros; apply Hav; now right).
    destruct (rec_ok m true a be Hm) as (e & x & E & He).
    rewrite (min_loop_cons rec p m rest a be me bm b e x Hm E).
    destruct (Z.leb_spec (Z.min be e) a) as [Hcut|Hcut].
    + exists [(m, e)], rest. eexists _, _.
      split; [reflexivity|]. split.
      { intros [|q pre] m0 e0 post E0; simpl in E0.
        - injection E0 as -> -> _. exists x. exact E.
        - injection E0 as _ E2. destruct pre; discriminate. }
      split; [intros ? [<-|[]]; exact He|].
      split; [intros _; exact Hcut|].
      split; [reflexivity|].
      destruct (Z.ltb_spec e me).
      * right. split; [lia|]. exists [], m, [].
        repeat split; auto; intros ? [].
      * left. repeat split; auto. intros ? [<-|[]]. simpl. lia.
    + destruct (IH Hrest a (Z.min be e) (if e <? me then e else me)
                  (if e <? me then Some m else bm))
        as (trace & skipped & v & mv & Em & Hev & Hrg & Hsk & R & Hres).
      exists ((m, e) :: trace), skipped, v, mv.
      split; [simpl; now rewrite Em|]. split.
      { intros [|q pre] m0 e0 post E0; simpl in E0.
        - injection E0 as -> -> _. exists x. exact E.
        - injection E0 as <- E2. simpl. eapply Hev; eauto. }
      split; [intros ? [<-|Hx]; [exact He|auto]|].
      split; [exact Hsk|]. split; [exact R|].
      destruct (Z.ltb_spec e me).
      * right.
        destruct Hres
          as [(-> & -> & Hle)|(Hlt & pre & m1 & post & -> & -> & Hp & Hq)].
        -- split; [lia|]. exists [], m, trace.
           repeat split; auto. intros ? [].
        -- split; [lia|]. exists ((m, e) :: pre), m1, post.
           repeat split; auto. intros ? [<-|Hx]; auto.
      * destruct Hres
          as [(-> & -> & Hle)|(Hlt & pre & m1 & post & -> & -> & Hp & Hq)].
        -- left. repeat split; auto. intros ? [<-|Hx]; auto.
        -- right. split; [lia|]. exists ((m, e) :: pre), m1, post.
           repeat split; auto. intros ? [<-|Hx]; auto. simpl. lia.
Qed.

End LoopTrace.

(** ** Which move the search returns *)

Lemma fold_left_max_bounds (l : list Z) (lo hi : Z) :
  forall a,
    lo <= a -> a <= hi -> (forall x, In x l -> x <= hi) ->
    lo <= fold_left Z.max l a <= hi.
Proof.
  induction l as [|h t IH]; intros a Hlo Hhi Hl; simpl; [lia|].
  apply IH; [lia| |intros; apply Hl; now right].
  specialize (Hl h (or_introl eq_refl)). lia.
Qed.

Lemma fold_left_max_lt (l : list Z) (v : Z) :
  forall a, a < v -> (forall x, In x l -> x < v) -> fold_left Z.max l a < v.
Proof.
  induction l as [|h t IH]; intros a Ha Hl; simpl; [lia|].
  apply IH; [|intros; apply Hl; now right].
  specialize (Hl h (or_introl eq_refl)). lia.
Qed.

Lemma fold_left_min_bounds (l : list Z) (lo hi : Z) :
  forall a,
    lo <= a -> a <= hi -> (forall x, In x l -> lo <= x) ->
    lo <= fold_left Z.min l a <= hi.
Proof.
  induction l as [|h t IH]; intros a Hlo Hhi Hl; simpl; [lia|].
  apply IH; [|lia|intros; apply Hl; now right].
  specialize (Hl h (or_introl eq_refl)). lia.
Qed.

Lemma fold_left_min_gt (l : list Z) (v : Z) :
  forall a, v < a -> (forall x, In x l -> v < x) -> v < fold_left Z.min l a.
Proof.
  induction l as [|h t IH]; intros a Ha Hl; simpl; [lia|].
  apply IH; [|intros; apply Hl; now right].
  specialize (Hl h (or_introl eq_refl)). lia.
Qed.

Lemma evaluated_fun b p mx a be m e e' :
  evaluated b p mx a be m e -> evaluated b p mx a be m e' -> e = e'.
Proof. intros [x E] [x' E']. congruence. Qed.

(** A score obtained with a proper window is [bounded] by the score the full
    window gives for the same candidate. *)
Lemma evaluated_exact b p mx a be m e :
  (9 <= length b)%nat ->
  -999 <= a -> a < be -> be <= 999 ->
  evaluated b p mx a be m e ->
  exists c,
    evaluated b p mx (-999) 999 m c /\ bounded a be c e /\ -1 <= c <= 1.
Proof.
  intros Hb Ha Hab Hbe [x E].
  assert (Hb' : (9 <= length (upd b m p))%nat) by now rewrite upd_length.
  pose proof (depth_le_fuel (upd b m p) (opponent p)) as Hd.
  destruct (minimax_fuel_exact _ (upd b m p) (opponent p) mx Hb' Hd)
    as ([c y] & R & P).
  destruct (exhaustive_fuel_sound _ (upd b m p) (opponent p) mx Hb' Hd)
    as (c' & y' & P' & Hc).
  rewrite P in P'. injection P' as <- <-.
  exists c. split; [exists y; exact R|]. split; auto.
  eapply minimax_fuel_bounded; eauto.
Qed.

(** The loops of a call of [minimax] on a non-terminal board, with their
    recursive calls expressed by [minimax]. *)
Lemma minimax_unfold b p mx a be :
  (9 <= length b)%nat -> winner_value WIN_LINES b = None ->
  minimax p mx a be b
  = (if mx
     then max_loop (minimax_fuel (length b + 1)) p (available_moves b)
            a be (-999) None
     else min_loop (minimax_fuel (length b + 1)) p (available_moves b)
            a be 999 None) b
  /\ (forall m mx a be,
         nth_error b m = Some EMPTY ->
         minimax_fuel (length b + 1) (opponent p) mx a be (upd b m p)
         = minimax (opponent p) mx a be (upd b m p))
  /\ (forall m mx a be,
         nth_error b m = Some EMPTY ->
         exists e x,
           minimax_fuel (length b + 1) (opponent p) mx a be (upd b m p)
           = Ok ((e, x), upd b m p) /\ -1 <= e <= 1).
Proof.
  intros Hb W. pose proof (depth_le_fuel b p) as Hd.
  replace (length b + 2)%nat with (S (length b + 1)) in Hd by lia.
  split; [|split].
  - unfold minimax. replace (length b + 2)%nat with (S (length b + 1)) by lia.
    simpl. unfold bind at 1, inspect at 1. rewrite (winner_total b Hb), W.
    unfold bind at 1, inspect at 1. now destruct mx.
  - intros. now apply minimax_fuel_child.
  - intros m mx' a' be' Hm. pose proof (depth_child b p m Hm).
    destruct (minimax_fuel_sound (length b + 1) (upd b m p) (opponent p)
                mx' a' be') as (e & x & R & S);
      rewrite ?upd_length; try lia.
    exists e, x. split; auto. apply S.
Qed.

(** The result of the maximizing branch, for any window: the examined
    candidates with their scores, and the first of them with the best score
    as the move. *)
Lemma minimax_max_trace b p a be :
  (9 <= length b)%nat -> winner_value WIN_LINES b = None ->
  exists trace skipped v m pre post,
    available_moves b = map fst trace ++ skipped
    /\ (forall pre m e post,
           trace = pre ++ (m, e) :: post ->
           evaluated b p false (fold_left Z.max (map snd pre) a) be m e)
    /\ (forall x, In x trace -> -1 <= snd x <= 1)
    /\ (skipped <> [] -> be <= fold_left Z.max (map snd trace) a)
    /\ minimax p true a be b = Ok ((v, Some m), b)
    /\ trace = pre ++ (m, v) :: post
    /\ (forall x, In x pre -> snd x < v)
    /\ (forall x, In x post -> snd x <= v).
Proof.
  intros Hb W. destruct (minimax_unfold b p true a be Hb W) as (U & Hch & Hrec).
  assert (Hav : forall m, In m (available_moves b) ->
                      nth_error b m = Some EMPTY)
    by (intros m; apply available_moves_spec).
  destruct (max_loop_trace _ b p Hrec (available_moves b) Hav a be (-999) None)
    as (trace & skipped & v & mv & Em & Hev & Hrg & Hsk & R & Hres).
  rewrite <- U in R.
  destruct (minimax_sound b p true a be Hb) as (v0 & mv0 & R0 & Hv0 & _).
  rewrite R in R0. injection R0 as <- <-.
  destruct Hres as [(-> & _)|(_ & pre & m & post & -> & -> & Hp & Hq)]; [lia|].
  exists (pre ++ (m, v) :: post), skipped, v, m, pre, post.
  split; [exact Em|]. split.
  { intros pre' m' e' post' E'. destruct (Hev pre' m' e' post' E') as [x Ex].
    exists x. rewrite <- Hch; auto. apply Hav. rewrite Em, E', map_app.
    apply in_or_app. left. apply in_or_app. right. now left. }
  split; [exact Hrg|]. split; [exact Hsk|]. split; [exact R|].
  split; [reflexivity|]. split; [exact Hp|exact Hq].
Qed.

Lemma minimax_min_trace b p a be :
  (9 <= length b)%nat -> winner_value WIN_LINES b = None ->
  exists trace skipped v m pre post,
    available_moves b = map fst trace ++ skipped
    /\ (forall pre m e post,
           trace = pre ++ (m, e) :: post ->
           evaluated b p true a (fold_left Z.min (map snd pre) be) m e)
    /\ (forall x, In x trace -> -1 <= snd x <= 1)
    /\ (skipped <> [] -> fold_left Z.min (map snd trace) be <= a)
    /\ minimax p false a be b = Ok ((v, Some m), b)
    /\ trace = pre ++ (m, v) :: post
    /\ (forall x, In x pre -> v < snd x)
    /\ (forall x, In x post -> v <= snd x).
Proof.
  intros Hb W. destruct (minimax_unfold b p false a be Hb W) as (U & Hch & Hrec).
  assert (Hav : forall m, In m (available_moves b) ->
                      nth_error b m = Some EMPTY)
    by (intros m; apply available_moves_spec).
  destruct (min_loop_trace _ b p Hrec (available_moves b) Hav a be 999 None)
    as (trace & skipped & v & mv & Em & Hev & Hrg & Hsk & R & Hres).
  rewrite <- U in R.
  destruct (minimax_sound b p false a be Hb) as (v0 & mv0 & R0 & Hv0 & _).
  rewrite R in R0. injection R0 as <- <-.
  destruct Hres as [(-> & _)|(_ & pre & m & post & -> & -> & Hp & Hq)]; [lia|].
  exists (pre ++ (m, v) :: post), skipped, v, m, pre, post.
  split; [exact Em|]. split.
  { intros pre' m' e' post' E'. destruct (Hev pre' m' e' post' E') as [x Ex].
    exists x. rewrite <- Hch; auto. apply Hav. rewrite Em, E', map_app.
    apply in_or_app. left. apply in_or_app. right. now left. }
  split; [exact Hrg|]. split; [exact Hsk|]. split; [exact R|].
  split; [reflexivity|]. split; [exact Hp|exact Hq].
Qed.

(** With the full window, the move of the maximizing branch is the lowest
    cell whose position has the best full-window score. *)
Lemma minimax_max_first b p :
  (9 <= length b)%nat -> winner_value WIN_LINES b = None ->
  exists v m,
    minimax p true (-999) 999 b = Ok ((v, Some m), b)
    /\ In m (available_moves b)
    /\ evaluated b p false (-999) 999 m v
    /\ (forall m', In m' (available_moves b) ->
          exists v', evaluated b p false (-999) 999 m' v'
                     /\ v' <= v /\ ((m' < m)%nat -> v' < v)).
Proof.
  intros Hb W.
  destruct (minimax_max_trace b p (-999) 999 Hb W)
    as (trace & skipped & v & m & pre & post
        & Em & Hev & Hrg & Hsk & R & Et & Hp & Hq).
  assert (Hfold : forall l, (forall x, In x l -> In x trace) ->
             -999 <= fold_left Z.max (map snd l) (-999) <= 999
             /\ fold_left Z.max (map snd l) (-999) <= 1).
  { intros l Hl.
    assert (F : (-999) <= fold_left Z.max (map snd l) (-999) <= 1); [|lia].
    apply fold_left_max_bounds; [lia|lia|].
    intros y Hy. apply in_map_iff in Hy. destruct Hy as (x & <- & Hx).
    apply Hrg. auto. }
  assert (skipped = []).
  { destruct skipped as [|s0 sk]; auto. exfalso.
    assert (Hs : s0 :: sk <> []) by discriminate.
    apply Hsk in Hs. destruct (Hfold trace (fun x H => H)). lia. }
  subst skipped. rewrite app_nil_r in Em.
  assert (Hv : -1 <= v <= 1).
  { apply (Hrg (m, v)). rewrite Et. apply in_elt. }
  assert (K : forall pre' m' e' post',
             trace = pre' ++ (m', e') :: post' ->
             exists c, evaluated b p false (-999) 999 m' c
                       /\ bounded (fold_left Z.max (map snd pre') (-999)) 999 c e'
                       /\ -1 <= e' <= 1).
  { intros pre' m' e' post' E'.
    destruct (Hfold pre') as [F1 F2].
    { intros x Hx. rewrite E'. apply in_or_app. now left. }
    destruct (evaluated_exact b p false (fold_left Z.max (map snd pre') (-999)) 999 m' e' Hb
                ltac:(lia) ltac:(lia) ltac:(lia) (Hev _ _ _ _ E'))
      as (c & Ec & Bc & _).
    exists c. split; auto. split; auto.
    apply (Hrg (m', e')). rewrite E'. apply in_elt. }
  assert (Esp : available_moves b = map fst pre ++ m :: map fst post).
  { rewrite Em, Et, map_app. reflexivity. }
  destruct (available_moves_split b _ _ _ Esp) as [_ Hgt].
  exists v, m. split; [exact R|]. split.
  { rewrite Esp. apply in_elt. }
  split.
  - destruct (K pre m v post Et) as (c & Ec & (B1 & B2 & B3) & _).
    assert (Hlt : fold_left Z.max (map snd pre) (-999) < v).
    { apply fold_left_max_lt; [lia|]. intros y Hy. apply in_map_iff in Hy.
      destruct Hy as (x & <- & Hx). auto. }
    destruct (Hfold pre) as [F1 F2].
    { intros x Hx. rewrite Et. apply in_or_app. now left. }
    assert (v = c) by (apply B3; lia). now subst c.
  - intros m' Hm'. rewrite Em in Hm'. apply in_map_iff in Hm'.
    destruct Hm' as ([m0 e'] & Hf & Hx). simpl in Hf. subst m0.
    destruct (in_split _ _ Hx) as (pre' & post' & E').
    destruct (K pre' m' e' post' E') as (c & Ec & (B1 & B2 & B3) & He).
    destruct (Hfold pre') as [F1 F2].
    { intros x Hx'. rewrite E'. apply in_or_app. now left. }
    exists c. split; [exact Ec|].
    rewrite Et in Hx. apply in_app_or in Hx.
    destruct Hx as [Hx|[Hx|Hx]].
    + specialize (Hp _ Hx). simpl in Hp. split; [lia|]. intros _. lia.
    + injection Hx as <- <-. split; [lia|]. intros; lia.
    + specialize (Hq _ Hx). simpl in Hq. split; [lia|]. intros Hlt.
      specialize (Hgt m'). assert (m < m')%nat; [|lia].
      apply Hgt. apply in_map_iff. exists (m', e'). auto.
Qed.

(** With the full window, the move of the minimizing branch is the lowest
    cell whose position has the best full-window score. *)
Lemma minimax_min_first b p :
  (9 <= length b)%nat -> winner_value WIN_LINES b = None ->
  exists v m,
    minimax p false (-999) 999 b = Ok ((v, Some m), b)
    /\ In m (available_moves b)
    /\ evaluated b p true (-999) 999 m v
    /\ (forall m', In m' (available_moves b) ->
          exists v', evaluated b p true (-999) 999 m' v'
                     /\ v <= v' /\ ((m' < m)%nat -> v < v')).
Proof.
  intros Hb W.
  destruct (minimax_min_trace b p (-999) 999 Hb W)
    as (trace & skipped & v & m & pre & post
        & Em & Hev & Hrg & Hsk & R & Et & Hp & Hq).
  assert (Hfold : forall l, (forall x, In x l -> In x trace) ->
             -999 <= fold_left Z.min (map snd l) 999 <= 999
             /\ -1 <= fold_left Z.min (map snd l) 999).
  { intros l Hl.
    assert (F : (-1) <= fold_left Z.min (map snd l) 999 <= 999); [|lia].
    apply fold_left_min_bounds; [lia|lia|].
    intros y Hy. apply in_map_iff in Hy. destruct Hy as (x & <- & Hx).
    apply Hrg. auto. }
  assert (skipped = []).
  { destruct skipped as [|s0 sk]; auto. exfalso.
    assert (Hs : s0 :: sk <> []) by discriminate.
    apply Hsk in Hs. destruct (Hfold trace (fun x H => H)). lia. }
  subst skipped. rewrite app_nil_r in Em.
  assert (Hv : -1 <= v <= 1).
  { apply (Hrg (m, v)). rewrite Et. apply in_elt. }
  assert (K : forall pre' m' e' post',
             trace = pre' ++ (m', e') :: post' ->
             exists c, evaluated b p true (-999) 999 m' c
                       /\ bounded (-999) (fold_left Z.min (map snd pre') 999) c e'
                       /\ -1 <= e' <= 1).
  { intros pre' m' e' post' E'.
    destruct (Hfold pre') as [F1 F2].
    { intros x Hx. rewrite E'. apply in_or_app. now left. }
    destruct (evaluated_exact b p true (-999) (fold_left Z.min (map snd pre') 999) m' e' Hb
                ltac:(lia) ltac:(lia) ltac:(lia) (Hev _ _ _ _ E'))
      as (c & Ec & Bc & _).
    exists c. split; auto. split; auto.
    apply (Hrg (m', e')). rewrite E'. apply in_elt. }
  assert (Esp : available_moves b = map fst pre ++ m :: map fst post).
  { rewrite Em, Et, map_app. reflexivity. }
  destruct (available_moves_split b _ _ _ Esp) as [_ Hgt].
  exists v, m. split; [exact R|]. split.
  { rewrite Esp. apply in_elt. }
  split.
  - destruct (K pre m v post Et) as (c & Ec & (B1 & B2 & B3) & _).
    assert (Hlt : v < fold_left Z.min (map snd pre) 999).
    { apply fold_left_min_gt; [lia|]. intros y Hy. apply in_map_iff in Hy.
      destruct Hy as (x & <- & Hx). auto. }
    destruct (Hfold pre) as [F1 F2].
    { intros x Hx. rewrite Et. apply in_or_app. now left. }
    assert (v = c) by (apply B3; lia). now subst c.
  - intros m' Hm'. rewrite Em in Hm'. apply in_map_iff in Hm'.
    destruct Hm' as ([m0 e'] & Hf & Hx). simpl in Hf. subst m0.
    destruct (in_split _ _ Hx) as (pre' & post' & E').
    destruct (K pre' m' e' post' E') as (c & Ec & (B1 & B2 & B3) & He).
    destruct (Hfold pre') as [F1 F2].
    { intros x Hx'. rewrite E'. apply in_or_app. now left. }
    exists c. split; [exact Ec|].
    rewrite Et in Hx. apply in_app_or in Hx.
    destruct Hx as [Hx|[Hx|Hx]].
    + specialize (Hp _ Hx). simpl in Hp. split; [lia|]. intros _. lia.
    + injection Hx as <- <-. split; [lia|]. intros; lia.
    + specialize (Hq _ Hx). simpl in Hq. split; [lia|]. intros Hlt.
      specialize (Hgt m'). assert (m < m')%nat; [|lia].
      apply Hgt. apply in_map_iff. exists (m', e'). auto.
Qed.

(** ** Playing a game out *)

Lemma never_loses_sound (reply : board -> nat -> Prop) :
  (forall b m, reply b m -> nth_error b m = Some EMPTY) ->
  forall n ai_turn b r,
    never_loses n ai_turn b = true ->
    plays reply ai_turn b r -> not_lost r = true.
Proof.
  intros Hreply. induction n as [|n IH]; intros ai_turn b r Hn Hp;
    [discriminate|].
  simpl in Hn. inversion Hp as [t b0 r0 W|b0 m pr r0 W A P|b0 m r0 W Rp P];
    subst; rewrite W in Hn.
  - exact Hn.
  - rewrite A in Hn. eapply IH; eauto.
  - rewrite forallb_forall in Hn. eapply IH; eauto.
    apply Hn. apply available_moves_spec. now apply Hreply.
Qed.

Lemma self_play_sound (n : nat) :
  forall ai_turn b r b',
    (9 <= length b)%nat ->
    self_play n ai_turn b = Ok (r, b') ->
    plays optimal_reply ai_turn b r.
Proof.
  induction n as [|n IH]; intros ai_turn b r b' Hb Hs; [discriminate|].
  simpl in Hs. unfold bind at 1, inspect at 1 in Hs.
  pose proof (winner_total b Hb) as W. rewrite W in Hs.
  destruct (winner_value WIN_LINES b) as [r0|] eqn:Wv; cbv beta iota in Hs.
  - unfold ret in Hs. injection Hs as <- _. now apply plays_over.
  - destruct ai_turn.
    + unfold bind at 1 in Hs.
      destruct (ai_move b) as [[[m pr] b1]| |] eqn:A; try discriminate.
      pose proof (ai_move_frame b _ _ A). subst b1.
      unfold bind at 1, store at 1 in Hs. cbv beta iota delta [fst] in Hs.
      destruct (m <? length b)%nat; [|discriminate].
      eapply plays_ai; eauto. eapply IH; eauto. now rewrite upd_length.
    + unfold bind at 1 in Hs.
      destruct (minimax_min_first b HUMAN Hb Wv)
        as (v & m & R & Hm & Ev & _).
      rewrite R in Hs. cbv beta iota delta [snd] in Hs.
      unfold bind at 1, store at 1 in Hs.
      destruct (m <? length b)%nat; [|discriminate].
      apply available_moves_spec in Hm.
      eapply plays_opponent; eauto.
      * split; eauto.
      * eapply IH; eauto. now rewrite upd_length.
Qed.

Lemma plays_mono (reply reply' : board -> nat -> Prop) :
  (forall b m, reply b m -> reply' b m) ->
  forall ai_turn b r, plays reply ai_turn b r -> plays reply' ai_turn b r.
Proof.
  intros H ai_turn b r P.
  induction P; [apply plays_over|eapply plays_ai|eapply plays_opponent];
    eauto.
Qed.

Lemma never_loses_empty_board (ai_first : bool) :
  never_loses 10 ai_first empty_board = true.
Proof. destruct ai_first; vm_compute; reflexivity. Qed.

Lemma self_play_empty_board (ai_first : bool) :
  exists final, self_play 10 ai_first empty_board = Ok (Draw, final).
Proof. destruct ai_first; eexists; vm_compute; reflexivity. Qed.

(** * The stated properties *)

(** ** C1: pruning equivalence *)

(** C1. For every board of nine cells, whichever side moves and whichever
    branch is taken, [minimax] called with [alpha = -999] and [beta = 999]
    returns the same (score, move) pair as the exhaustive minimax without
    pruning on the same board (and hands the board back unchanged). *)
Theorem C1_pruning_equivalence (b : board) (p : cell) (mx : bool) :
  length b = 9%nat ->
  exists r,
    minimax p mx (-999) 999 b = Ok (r, b)
    /\ exhaustive_minimax b p mx = Ok r.
Proof.
  intros Hb. unfold minimax, exhaustive_minimax.
  apply minimax_fuel_exact; [lia|apply depth_le_fuel].
Qed.

Lemma C1_pruning_equivalence_witness :
  exists r,
    minimax AI true (-999) 999 empty_board = Ok (r, empty_board)
    /\ exhaustive_minimax empty_board AI true = Ok r.
Proof. apply (C1_pruning_equivalence empty_board AI true). reflexivity. Defined.

(** ** C2: what [winner] returns *)

(** On [double_win] the line (3, 4, 5) of [WIN_LINES] has its three cells
    equal to the non-empty side [AI], yet [winner] returns [HUMAN], the side
    of the line (0, 1, 2) that comes first in the table: [winner] does not
    return a side whenever that side holds a line. *)
Lemma C2_both_sides_hold_a_line :
  length double_win = 9%nat
  /\ In (3, 4, 5)%nat WIN_LINES
  /\ holds double_win (3, 4, 5)%nat AI
  /\ winner double_win = Ok (Some (Win HUMAN))
  /\ winner double_win <> Ok (Some (Win AI)).
Proof.
  split; [reflexivity|]. split; [simpl; tauto|]. split.
  - unfold holds, double_win. simpl. repeat split; discriminate.
  - split; [reflexivity|]. vm_compute. discriminate.
Qed.

(** C2. For every board of nine cells, [winner] returns side [s]
    exactly when the first line of [WIN_LINES], in table order, whose three
    cells hold the same non-empty side holds [s]; it returns the draw exactly
    when no line is held and no cell is empty, and [None] exactly when no line
    is held and some cell is empty.  On a board where the lines that are held
    all belong to one side, it returns a side exactly when one of the eight
    lines is held by that side. *)
Theorem C2_winner_first_line (b : board) :
  length b = 9%nat ->
  (forall s,
      winner b = Ok (Some (Win s)) <->
      exists pre l post,
        WIN_LINES = pre ++ l :: post /\ holds b l s
        /\ forall l' s', In l' pre -> ~ holds b l' s')
  /\ (winner b = Ok (Some Draw) <-> no_line b /\ ~ In EMPTY b)
  /\ (winner b = Ok None <-> no_line b /\ In EMPTY b)
  /\ ((forall l s l' s',
          In l WIN_LINES -> In l' WIN_LINES ->
          holds b l s -> holds b l' s' -> s = s') ->
      forall s,
        winner b = Ok (Some (Win s)) <->
        exists l, In l WIN_LINES /\ holds b l s).
Proof.
  intros Hlen. assert (Hb : (9 <= length b)%nat) by lia.
  pose proof (WIN_LINES_in_range b Hb) as R. rewrite Forall_forall in R.
  rewrite (winner_total b Hb). unfold winner_value.
  assert (First : forall s,
             (exists l, find (line_full b) WIN_LINES = Some l
                        /\ cell_at b (fst (fst l)) = s) <->
             exists pre l post,
               WIN_LINES = pre ++ l :: post /\ holds b l s
               /\ forall l' s', In l' pre -> ~ holds b l' s').
  { intros s. split.
    - intros (l & F & <-). apply find_first in F.
      destruct F as (pre & post & E & Fl & Fpre).
      assert (Hl : In l WIN_LINES) by (rewrite E; apply in_elt).
      exists pre, l, post. split; [exact E|]. split.
      + now apply line_full_holds; [apply R|].
      + intros l' s' Hl' Hh. apply holds_line_full in Hh.
        destruct Hh as [Hf _]. rewrite (Fpre l' Hl') in Hf. discriminate.
    - intros (pre & l & post & E & Hh & Hpre).
      apply holds_line_full in Hh. destruct Hh as [Hf Hs].
      exists l. split; [|exact Hs]. apply find_first.
      exists pre, post. split; [exact E|]. split; [exact Hf|].
      intros y Hy. destruct (line_full b y) eqn:Fy; auto.
      assert (Hy' : In y WIN_LINES)
        by (rewrite E; apply in_or_app; now left).
      apply (line_full_holds b y (R y Hy')) in Fy.
      now apply Hpre in Fy. }
  pose proof (no_line_find b Hb) as NL.
  pose proof (existsb_empty_In b) as EI.
  assert (Side : forall s,
             match find (line_full b) WIN_LINES with
             | Some l => Some (Win (cell_at b (fst (fst l))))
             | None =>
                 if existsb (fun v => cell_eqb v EMPTY) b
                 then None else Some Draw
             end = Some (Win s) <->
             exists l, find (line_full b) WIN_LINES = Some l
                       /\ cell_at b (fst (fst l)) = s).
  { intros s. destruct (find (line_full b) WIN_LINES) as [l|].
    - split.
      + intros [= <-]. eauto.
      + intros (l' & [= <-] & <-). reflexivity.
    - split.
      + destruct (existsb _ b); discriminate.
      + intros (l' & [=] & _). }
  split; [|split; [|split]].
  - intros s. rewrite <- First, <- Side. split; congruence.
  - rewrite <- NL. destruct (find (line_full b) WIN_LINES) as [l|].
    + split; [discriminate|]. intros [[=] _].
    + destruct (existsb _ b).
      * split; [discriminate|]. intros [_ H]. exfalso. apply H, EI.
        reflexivity.
      * split; auto. intros _. split; auto. intros H. apply EI in H.
        discriminate.
  - rewrite <- NL. destruct (find (line_full b) WIN_LINES) as [l|].
    + split; [discriminate|]. intros [[=] _].
    + destruct (existsb _ b).
      * split; auto. intros _. split; auto. now apply EI.
      * split; [discriminate|]. intros [_ H]. apply EI in H. discriminate.
  - intros Hone s. split.
    + intros W. assert (W' : winner_value WIN_LINES b = Some (Win s))
        by (unfold winner_value; congruence).
      apply Side, First in W'. destruct W' as (pre & l & post & E & Hh & _).
      exists l. split; auto. rewrite E. apply in_elt.
    + intros (l & Hl & Hh).
      destruct (find (line_full b) WIN_LINES) as [l0|] eqn:F.
      * assert (F' : exists l, Some l0 = Some l
                               /\ cell_at b (fst (fst l)) = cell_at b (fst (fst l0)))
          by eauto.
        apply First in F'. destruct F' as (pre & l1 & post & E & Hh1 & _).
        assert (Hl1 : In l1 WIN_LINES) by (rewrite E; apply in_elt).
        rewrite (Hone _ _ _ _ Hl1 Hl Hh1 Hh). reflexivity.
      * exfalso. exact (proj1 NL eq_refl l s Hl Hh).
Qed.

Lemma C2_winner_first_line_witness :
  winner [AI; AI; AI; HUMAN; HUMAN; EMPTY; EMPTY; EMPTY; EMPTY]
  = Ok (Some (Win AI)).
Proof.
  apply (proj1 (C2_winner_first_line
                  [AI; AI; AI; HUMAN; HUMAN; EMPTY; EMPTY; EMPTY; EMPTY]
                  eq_refl)).
  exists [], (0, 1, 2)%nat,
    [(3, 4, 5); (6, 7, 8); (0, 3, 6); (1, 4, 7); (2, 5, 8);
     (0, 4, 8); (2, 4, 6)]%nat.
  split; [reflexivity|]. split.
  - simpl. repeat split; discriminate.
  - intros l' s' [].
Defined.

(** ** C3: the board after a call *)

Lemma twice_same {A} (m : M A) :
  (forall b r b', m b = Ok (r, b') -> b' = b) ->
  forall b r1 r2 b', twice m b = Ok ((r1, r2), b') -> r1 = r2 /\ b' = b.
Proof.
  intros Hframe b r1 r2 b' T. unfold twice in T. unfold bind at 1 in T.
  destruct (m b) as [[x b1]| |] eqn:E1; try discriminate.
  pose proof (Hframe _ _ _ E1). subst b1.
  unfold bind at 1 in T. rewrite E1 in T. unfold ret in T.
  injection T as <- <- <-. auto.
Qed.

(** C3. Whatever the board (of any length), the side, the branch and the
    window, when [minimax] returns the board is what it was before the call,
    and so it is when [ai_move] returns: every [board[m] = player] has been
    undone by [board[m] = EMPTY], also when a cutoff ends a loop.  Two calls
    in a row with the same arguments therefore return the same result.  On a
    board of nine cells [minimax] does return, and so does [ai_move] when a
    cell is free. *)
Theorem C3_board_restored :
  (forall p mx a be b r b', minimax p mx a be b = Ok (r, b') -> b' = b)
  /\ (forall b r b', ai_move b = Ok (r, b') -> b' = b)
  /\ (forall p mx a be b r1 r2 b',
         twice (minimax p mx a be) b = Ok ((r1, r2), b') ->
         r1 = r2 /\ b' = b)
  /\ (forall b r1 r2 b',
         twice ai_move b = Ok ((r1, r2), b') -> r1 = r2 /\ b' = b)
  /\ (forall p mx a be b,
         length b = 9%nat -> exists r, minimax p mx a be b = Ok (r, b))
  /\ (forall b,
         length b = 9%nat -> available_moves b <> [] ->
         exists r, ai_move b = Ok (r, b)).
Proof.
  split; [|split; [|split; [|split; [|split]]]].
  - intros. eapply minimax_frame; eauto.
  - intros. eapply ai_move_frame; eauto.
  - intros p mx a be. apply twice_same. intros. eapply minimax_frame; eauto.
  - apply twice_same. intros. eapply ai_move_frame; eauto.
  - intros p mx a be b Hb.
    destruct (minimax_sound b p mx a be) as (v & mv & R & _); [lia|]. eauto.
  - intros b Hb Hne.
    destruct (ai_move_spec b) as (outs & pre & v & post & mpre & m & mpost & H);
      [lia|exact Hne|].
    decompose [and] H. eauto.
Qed.

Lemma C3_board_restored_witness :
  (exists r, minimax AI true 0 1 empty_board = Ok (r, empty_board))
  /\ (exists r, ai_move empty_board = Ok (r, empty_board)).
Proof.
  split.
  - apply (proj1 (proj2 (proj2 (proj2 (proj2 C3_board_restored))))).
    reflexivity.
  - apply (proj2 (proj2 (proj2 (proj2 (proj2 C3_board_restored))))).
    + reflexivity.
    + discriminate.
Defined.

(** ** C4: the probability figure *)

(** C4. For every board of nine cells with a free cell, [ai_move] records
    for each candidate move, in order, the score of the search run with the
    opponent to move and minimizing on the board where the automated side has
    played the candidate, and returns
    [(wins + 0.5 * draws) / total] (in binary64 arithmetic), where [total] is
    the number of candidates, [wins] the number of scores equal to 1 and
    [draws] the number equal to 0; that value lies between 0.0 and 1.0. *)
Theorem C4_probability (b : board) :
  length b = 9%nat -> available_moves b <> [] ->
  exists outcomes move,
    Forall2
      (fun m v =>
         exists x,
           minimax HUMAN false (-999) 999 (upd b m AI)
           = Ok ((v, x), upd b m AI))
      (available_moves b) outcomes
    /\ let total := length outcomes in
       let wins := count 1 outcomes in
       let draws := count 0 outcomes in
       let prob :=
         ((float_of_nat wins + 0.5 * float_of_nat draws)
          / float_of_nat total)%float in
       ai_move b = Ok ((move, prob), b)
       /\ (0 <=? prob)%float = true
       /\ (prob <=? 1)%float = true.
Proof.
  intros Hb Hne.
  destruct (ai_move_spec b) as (outs & pre & v & post & mpre & m & mpost & H);
    [lia|exact Hne|].
  destruct H as (F2 & _ & E & _ & _ & _ & _ & _ & A).
  exists outs, m. split; [exact F2|].
  assert (Ho : outs <> []) by (rewrite E; now destruct pre).
  rewrite (probability_expr outs Ho) in A.
  split; [exact A|].
  assert (Hlen : (1 <= length outs <= 9)%nat).
  { rewrite <- (Forall2_length F2). pose proof (available_moves_length b).
    destruct (available_moves b); [congruence|simpl in *; lia]. }
  pose proof (prob_expr_small (count 1 outs) (count 0 outs) (length outs)
                Hlen (count_two outs)) as U.
  unfold unit_interval in U. apply andb_true_iff in U. exact U.
Qed.

Lemma C4_probability_witness :
  exists outcomes move,
    Forall2
      (fun m v =>
         exists x,
           minimax HUMAN false (-999) 999 (upd empty_board m AI)
           = Ok ((v, x), upd empty_board m AI))
      (available_moves empty_board) outcomes
    /\ let total := length outcomes in
       let wins := count 1 outcomes in
       let draws := count 0 outcomes in
       let prob :=
         ((float_of_nat wins + 0.5 * float_of_nat draws)
          / float_of_nat total)%float in
       ai_move empty_board = Ok ((move, prob), empty_board)
       /\ (0 <=? prob)%float = true
       /\ (prob <=? 1)%float = true.
Proof.
  apply (C4_probability empty_board); [reflexivity|discriminate].
Defined.

(** ** C5: ties *)

Lemma Forall2_In_l {A B} (R : A -> B -> Prop) l l' x :
  Forall2 R l l' -> In x l -> exists y, In y l' /\ R x y.
Proof.
  induction 1 as [|a b0 l l' Rab F IH]; intros Hin; [destruct Hin|].
  destruct Hin as [<-|Hin].
  - exists b0. split; [now left|exact Rab].
  - destruct (IH Hin) as (y & Hy & Ry). exists y. split; [now right|exact Ry].
Qed.

(** C5. On a board of nine cells:
    - in the maximizing branch of [minimax], for any window, the move
      returned is the first of the examined candidates, in ascending cell
      order, whose score equals the score returned: the candidates before it
      scored strictly less (the best changes on [>] only) and those after it
      scored no more; symmetrically in the minimizing branch;
    - with the full window this reads on full-window scores: the move is the
      lowest free cell whose position has the best score;
    - [ai_move] returns the lowest free cell among those with the highest
      recorded score. *)
Theorem C5_first_best_kept (b : board) :
  length b = 9%nat ->
  (winner b = Ok None ->
   forall p a be,
     (exists trace v m pre post,
         max_trace b p a be trace
         /\ minimax p true a be b = Ok ((v, Some m), b)
         /\ trace = pre ++ (m, v) :: post
         /\ (forall x, In x pre -> snd x < v)
         /\ (forall x, In x post -> snd x <= v))
     /\ (exists trace v m pre post,
            min_trace b p a be trace
            /\ minimax p false a be b = Ok ((v, Some m), b)
            /\ trace = pre ++ (m, v) :: post
            /\ (forall x, In x pre -> v < snd x)
            /\ (forall x, In x post -> v <= snd x)))
  /\ (winner b = Ok None ->
      forall p,
        (exists v m,
            minimax p true (-999) 999 b = Ok ((v, Some m), b)
            /\ In m (available_moves b)
            /\ evaluated b p false (-999) 999 m v
            /\ forall m', In m' (available_moves b) ->
                 exists v', evaluated b p false (-999) 999 m' v'
                            /\ v' <= v /\ ((m' < m)%nat -> v' < v))
        /\ (exists v m,
               minimax p false (-999) 999 b = Ok ((v, Some m), b)
               /\ In m (available_moves b)
               /\ evaluated b p true (-999) 999 m v
               /\ forall m', In m' (available_moves b) ->
                    exists v', evaluated b p true (-999) 999 m' v'
                               /\ v <= v' /\ ((m' < m)%nat -> v < v')))
  /\ (available_moves b <> [] ->
      exists v m prob,
        ai_move b = Ok ((m, prob), b)
        /\ In m (available_moves b)
        /\ scored b m v
        /\ forall m', In m' (available_moves b) ->
             exists v', scored b m' v'
                        /\ v' <= v /\ ((m' < m)%nat -> v' < v)).
Proof.
  intros Hlen. assert (Hb : (9 <= length b)%nat) by lia.
  pose proof (winner_total b Hb) as W.
  split; [|split].
  - intros Wn p a be. rewrite Wn in W. injection W as W. symmetry in W.
    split.
    + destruct (minimax_max_trace b p a be Hb W)
        as (trace & skipped & v & m & pre & post
            & Em & Hev & _ & _ & R & Et & Hp & Hq).
      exists trace, v, m, pre, post. split; [split; eauto|]. auto.
    + destruct (minimax_min_trace b p a be Hb W)
        as (trace & skipped & v & m & pre & post
            & Em & Hev & _ & _ & R & Et & Hp & Hq).
      exists trace, v, m, pre, post. split; [split; eauto|]. auto.
  - intros Wn p. rewrite Wn in W. injection W as W. symmetry in W.
    split; [apply minimax_max_first|apply minimax_min_first]; auto.
  - intros Hne.
    destruct (ai_move_spec b Hb Hne)
      as (outs & pre & v & post & mpre & m & mpost
          & F2 & _ & E & Em & Fp & Sm & Hn & Hmax & A).
    exists v, m, (probability outs). split; [exact A|]. split.
    { rewrite Em. apply in_elt. }
    split; [exact Sm|].
    intros m' Hm'. destruct (Forall2_In_l _ _ _ m' F2 Hm') as (v' & Hv' & Sv').
    exists v'. split; [exact Sv'|]. split; [auto|].
    intros Hlt. destruct (available_moves_split b _ _ _ Em) as [_ Hgt].
    rewrite Em in Hm'. apply in_app_or in Hm'.
    destruct Hm' as [Hm'|[->|Hm']]; [|lia|apply Hgt in Hm'; lia].
    destruct (Forall2_In_l _ _ _ m' Fp Hm') as (v'' & Hv'' & Sv'').
    pose proof (evaluated_fun _ _ _ _ _ _ _ _ Sv' Sv''). subst v''.
    assert (v' <> v) by (intros ->; contradiction).
    specialize (Hmax v' Hv'). lia.
Qed.

Lemma C5_first_best_kept_witness :
  exists v m prob,
    ai_move empty_board = Ok ((m, prob), empty_board)
    /\ In m (available_moves empty_board)
    /\ scored empty_board m v
    /\ forall m', In m' (available_moves empty_board) ->
         exists v', scored empty_board m' v'
                    /\ v' <= v /\ ((m' < m)%nat -> v' < v).
Proof.
  apply (proj2 (proj2 (C5_first_best_kept empty_board eq_refl))).
  discriminate.
Defined.

(** ** C6: no candidate *)

(** C6. On a board without an empty cell [ai_move] divides by nothing: the
    probability expression takes its [else] branch, 0, for an empty list of
    scores, and the call then fails, [max] of the empty list raising
    [ValueError], instead of returning a (move, probability) pair. *)
Theorem C6_no_candidates (b : board) :
  available_moves b = [] ->
  (forall outcomes, length outcomes = 0%nat -> probability outcomes = 0%float)
  /\ ai_move b = Raise ValueError
  /\ forall r b', ai_move b <> Ok (r, b').
Proof.
  intros Hav.
  assert (A : ai_move b = Raise ValueError).
  { unfold ai_move. unfold bind at 1, inspect at 1. rewrite Hav.
    reflexivity. }
  split; [|split; [exact A|]].
  - intros [|x l] Hl; [reflexivity|discriminate].
  - intros r b'. rewrite A. discriminate.
Qed.

Lemma C6_no_candidates_witness :
  (forall outcomes, length outcomes = 0%nat -> probability outcomes = 0%float)
  /\ ai_move full_board = Raise ValueError
  /\ forall r b', ai_move full_board <> Ok (r, b').
Proof. apply (C6_no_candidates full_board). reflexivity. Defined.

(** ** C7: undecided boards have a free cell *)

(** C7. On a board of nine cells, if [winner] returns [None] then
    [available_moves] is not empty: no board is undecided with every cell
    taken. *)
Theorem C7_undecided_has_move (b : board) :
  length b = 9%nat -> winner b = Ok None -> available_moves b <> [].
Proof.
  intros Hb W. rewrite winner_total in W by lia.
  injection W as W. now apply winner_value_none.
Qed.

Lemma C7_undecided_has_move_witness : available_moves empty_board <> [].
Proof. apply (C7_undecided_has_move empty_board); reflexivity. Defined.

(** ** C8: the automated side never loses from the empty board *)

(** C8. Games from the empty board, with either side moving first, in which
    the automated side plays the move [ai_move] returns and the opponent
    plays optimal replies: the game in which the opponent plays the move the
    search returns for it ends in a draw, and every game in which the
    opponent plays optimal replies (indeed any replies) ends in a draw or a
    win of the automated side. *)
Theorem C8_never_loses (ai_first : bool) :
  (exists final, self_play 10 ai_first empty_board = Ok (Draw, final))
  /\ plays optimal_reply ai_first empty_board Draw
  /\ (forall r,
         plays optimal_reply ai_first empty_board r -> r = Draw \/ r = Win AI)
  /\ (forall r,
         plays legal_reply ai_first empty_board r -> r = Draw \/ r = Win AI).
Proof.
  assert (Safe : forall r,
             plays legal_reply ai_first empty_board r ->
             r = Draw \/ r = Win AI).
  { intros r P.
    pose proof (never_loses_empty_board ai_first) as N.
    pose proof (never_loses_sound legal_reply (fun _ _ H => H) 10
                  ai_first empty_board r N P) as L.
    destruct r as [[| |]|]; simpl in L; try discriminate; auto. }
  pose proof (self_play_empty_board ai_first) as Run.
  split; [exact Run|]. split; [|split; [|exact Safe]].
  - destruct Run as [final Run].
    eapply self_play_sound; [|exact Run]. simpl. lia.
  - intros r P. apply Safe.
    eapply plays_mono; [|exact P]. intros b m [H _]. exact H.
Qed.

(** ** C9: the probability on the empty board *)

(** On the empty board every candidate scores 0, so [ai_move] returns the
    probability [(0 + 0.5 * 9) / 9 = 0.5], which is not 1.0. *)
Lemma C9_empty_board_is_not_one :
  ai_move empty_board = Ok ((0%nat, 0.5%float), empty_board)
  /\ (0.5 =? 1)%float = false
  /\ 0.5%float <> 1%float.
Proof.
  split; [vm_compute; reflexivity|]. split; [reflexivity|].
  intros H.
  assert (E : (0.5 =? 1)%float = (1 =? 1)%float) by (rewrite H; reflexivity).
  vm_compute in E. discriminate.
Qed.

(** C9. On the empty board of nine cells each of the nine candidate
    moves is scored 0 (a draw), and [ai_move] returns cell 0 with the
    probability exactly 0.5. *)
Theorem C9_empty_board_probability :
  Forall2 (scored empty_board) (available_moves empty_board) (repeat 0 9)
  /\ probability (repeat 0 9) = 0.5%float
  /\ ai_move empty_board = Ok ((0%nat, 0.5%float), empty_board).
Proof.
  split; [|split; vm_compute; reflexivity].
  change (available_moves empty_board) with [0; 1; 2; 3; 4; 5; 6; 7; 8]%nat.
  repeat (constructor; [eexists; vm_compute; reflexivity|]). constructor.
Qed.

(** ** C10: range of the score, legality of the move *)

(** C10. On a board of nine cells, whatever the side, the branch and the
    window, [minimax] returns a score among -1, 0 and 1 (never -999 or 999);
    on a board [winner] leaves undecided the move it returns is an empty cell
    of the board, and on a decided board it returns no move. *)
Theorem C10_score_and_move (b : board) (p : cell) (mx : bool) (a be : Z) :
  length b = 9%nat ->
  exists v mv,
    minimax p mx a be b = Ok ((v, mv), b)
    /\ (v = -1 \/ v = 0 \/ v = 1)
    /\ (winner b = Ok None ->
        exists m, mv = Some m /\ In m (available_moves b)
                  /\ nth_error b m = Some EMPTY)
    /\ (winner b <> Ok None -> mv = None).
Proof.
  intros Hlen. assert (Hb : (9 <= length b)%nat) by lia.
  destruct (minimax_sound b p mx a be Hb) as (v & mv & R & Hv & Hm).
  exists v, mv. split; [exact R|]. split; [lia|].
  rewrite (winner_total b Hb).
  destruct (winner_value WIN_LINES b) as [w|]; split.
  - discriminate.
  - auto.
  - intros _. destruct Hm as (m & -> & Hm). exists m.
    repeat split; auto. now apply available_moves_spec.
  - congruence.
Qed.

Lemma C10_score_and_move_witness :
  exists v mv,
    minimax HUMAN false 0 0 empty_board = Ok ((v, mv), empty_board)
    /\ (v = -1 \/ v = 0 \/ v = 1)
    /\ (winner empty_board = Ok None ->
        exists m, mv = Some m /\ In m (available_moves empty_board)
                  /\ nth_error empty_board m = Some EMPTY)
    /\ (winner empty_board <> Ok None -> mv = None).
Proof. apply (C10_score_and_move empty_board HUMAN false 0 0). reflexivity. Defined.

(** * Further properties of the code *)

(** ** The loop of [main]

    The body of [while running] as a function of the events a pass
    receives, on the variables [main] keeps from one pass to the next. *)

(** What [main] distinguishes in an event of [pygame.event.get()]: [QUIT], a
    [MOUSEBUTTONDOWN], or anything else.  A [MOUSEBUTTONDOWN] comes with
    [idx], the number [row*3 + col] that [main] computes from the mouse
    position; the pixel arithmetic itself is not modelled. *)
Inductive event : Type := QUIT | MOUSEBUTTONDOWN (idx : nat) | OTHER.

(** The local variables of [main] that change: [board], [current], [result]
    and [ai_prob] ([running] stays [True] and [message] stays ["Your Turn"]). *)
Record game : Type := Game {
  g_board : board;
  g_current : cell;
  g_result : option result;
  g_ai_prob : option float
}.

(** The variables as [main] initialises them. *)
Definition initial_game : game := Game (repeat EMPTY 9) HUMAN None None.

(** [if result:] on what [winner] returns: [None] is false, a string true. *)
Definition truthy (r : option result) : bool :=
  match r with
  | Some _ => true
  | None => false
  end.

(** How the [for event in pygame.event.get()] loop ends: normally, or by
    [sys.exit()]. *)
Inductive flow : Type := Go (g : game) | SystemExit.

(** The [for event in pygame.event.get()] loop. *)
Fixpoint handle_events (events : list event) (g : game) : res flow :=
  match events with
  | [] => Ok (Go g)
  | QUIT :: _ => Ok SystemExit
  | ev :: rest =>
      if truthy (g_result g) then handle_events rest g
      else
        match ev with
        | MOUSEBUTTONDOWN idx =>
            if cell_eqb (g_current g) HUMAN
               && existsb (Nat.eqb idx) (available_moves (g_board g))
            then
              rbind (store idx HUMAN (g_board g)) (fun ub =>
              handle_events rest (Game (snd ub) AI (g_result g) None))
            else handle_events rest g
        | _ => handle_events rest g
        end
  end.

(** [move, prob = ai_move(board); board[move] = AI], returning [prob]. *)
Definition ai_reply : M float :=
  r <- ai_move ;; store (fst r) AI ;; ret (snd r).

(** How one pass through the body of [while running] ends: with the
    variables for the next pass and the outcome drawn on the screen, if one
    was, or by [sys.exit()]. *)
Inductive frame_end : Type :=
| Next (g : game) (shown : option result)
| Quit.

(** One pass through the body of [while running], given the events of that
    pass.  The calls that only draw or wait are left out. *)
Definition frame (events : list event) (g : game) : res frame_end :=
  rbind (handle_events events g) (fun f =>
  match f with
  | SystemExit => Ok Quit
  | Go g1 =>
      rbind (if negb (truthy (g_result g1)) && cell_eqb (g_current g1) AI
             then rbind (ai_reply (g_board g1)) (fun pb =>
                  Ok (Game (snd pb) HUMAN (g_result g1) (Some (fst pb))))
             else Ok g1) (fun g2 =>
      rbind (winner (g_board g2)) (fun result =>
      if truthy result
      then Ok (Next (Game (repeat EMPTY 9) HUMAN None None) result)
      else Ok (Next (Game (g_board g2) (g_current g2) result (g_ai_prob g2))
                 None)))
  end).

(** Where the program stands after some passes: still running, left by
    [sys.exit()], stopped by an exception, or out of the model's recursion
    budget. *)
Inductive run_end : Type :=
| Running (g : game)
| Exited
| Crashed (e : exn)
| Stalled.

(** The loop over the passes whose events are given, with the outcomes drawn
    on the way. *)
Fixpoint run (frames : list (list event)) (g : game)
  : list result * run_end :=
  match frames with
  | [] => ([], Running g)
  | events :: rest =>
      match frame events g with
      | Ok (Next g' shown) =>
          let (msgs, fin) := run rest g' in
          (match shown with Some r => r :: msgs | None => msgs end, fin)
      | Ok Quit => ([], Exited)
      | Raise e => ([], Crashed e)
      | OutOfFuel => ([], Stalled)
      end
  end.

(** ** Vocabulary of the further statements *)

(** The side to move, and the branch of the search, on each turn. *)
Definition mover (ai_turn : bool) : cell := if ai_turn then AI else HUMAN.

(** A board on which the automated side completes the top row with cell 2. *)
Definition win_in_one : board :=
  [AI; AI; EMPTY; HUMAN; HUMAN; EMPTY; EMPTY; EMPTY; EMPTY].

(** The check of [prob_expr_ends] over every count of up to nine scores. *)
Definition prob_ends_ok : bool :=
  forallb (fun t =>
    forallb (fun w =>
      forallb (fun d =>
        implb (w + d <=? t)%nat
          (Bool.eqb (prob_expr w d t =? 1)%float (w =? t)%nat
           && Bool.eqb (prob_expr w d t =? 0)%float
                ((w =? 0)%nat && (d =? 0)%nat)))
        (seq 0 10))
      (seq 0 10))
    (seq 1 9).

(** The event is [QUIT]. *)
Definition is_quit (ev : event) : bool :=
  match ev with QUIT => true | _ => false end.

(** Some event of the pass is [QUIT]. *)
Definition has_quit (events : list event) : bool := existsb is_quit events.

(** The first click of the pass that lands on a free cell of [b]. *)
Fixpoint first_free_click (b : board) (events : list event) : option nat :=
  match events with
  | [] => None
  | MOUSEBUTTONDOWN idx :: rest =>
      if existsb (Nat.eqb idx) (available_moves b) then Some idx
      else first_free_click b rest
  | _ :: rest => first_free_click b rest
  end.

(** The state in which a pass starts: nine cells, none of the outcomes of
    [winner] reached, no result pending, and the human to move. *)
Definition at_turn (g : game) : Prop :=
  length (g_board g) = 9%nat /\ g_current g = HUMAN /\ g_result g = None
  /\ winner (g_board g) = Ok None.

(** The variables after the events of a pass without [QUIT]. *)
Definition after_click (g : game) (click : option nat) : game :=
  match click with
  | Some idx => Game (upd (g_board g) idx HUMAN) AI None None
  | None => g
  end.

(** The human to move with cell 8 alone free. *)
Definition one_cell_left : game :=
  Game [AI; HUMAN; AI; HUMAN; HUMAN; AI; HUMAN; AI; EMPTY] HUMAN None None.

(** The human is to move, an odd number of cells is free, and the automated
    side cannot lose from here whatever the human plays. *)
Definition safe_turn (g : game) : Prop :=
  at_turn g
  /\ Nat.odd (nempty (g_board g)) = true
  /\ exists n, never_loses n false (g_board g) = true.

(** ** [available_moves] *)

Lemma nth_error_upd_same (b : board) (i : nat) (v : cell) :
  (i < length b)%nat -> nth_error (upd b i v) i = Some v.
Proof.
  revert i; induction b as [|h t IH]; intros [|j] H; simpl in *; try lia; auto.
  apply IH; lia.
Qed.

Lemma nth_error_upd_other (b : board) (i j : nat) (v : cell) :
  i <> j -> nth_error (upd b i v) j = nth_error b j.
Proof.
  revert i j; induction b as [|h t IH]; intros [|i] [|j] H; simpl; auto.
  congruence.
Qed.

Lemma filter_twice {A} (f g : A -> bool) (l : list A) :
  filter f (filter g l) = filter (fun x => g x && f x) l.
Proof.
  induction l as [|h t IH]; simpl; auto.
  destruct (g h); simpl; [destruct (f h)|]; now rewrite IH.
Qed.

Lemma available_moves_nempty (b : board) :
  length (available_moves b) = nempty b.
Proof.
  unfold available_moves, enumerate, nempty. rewrite length_map.
  generalize 0%nat. induction b as [|h t IH]; intros s; simpl; auto.
  unfold is_empty at 1. destruct (cell_eqb h EMPTY); simpl; now rewrite IH.
Qed.

Lemma available_moves_upd (b : board) (m : nat) (p : cell) :
  nth_error b m = Some EMPTY -> p <> EMPTY ->
  available_moves (upd b m p)
  = filter (fun i => negb (i =? m)%nat) (available_moves b).
Proof.
  intros Hm Hp. rewrite !available_moves_filter, upd_length, filter_twice.
  apply filter_ext. intros i. destruct (Nat.eqb_spec i m) as [->|Hne].
  - rewrite nth_error_upd_same by (eapply available_lt; eauto).
    rewrite Hm. destruct p; simpl; congruence.
  - rewrite nth_error_upd_other by congruence.
    destruct (nth_error b i) as [[| |]|]; reflexivity.
Qed.

(** X1. [available_moves] lists exactly the indices of the cells that hold
    [EMPTY], and lists them in strictly ascending order (so no index comes
    twice), for a board of any length. *)
Theorem X1_available_moves_ascending (b : board) :
  (forall m, In m (available_moves b) <-> nth_error b m = Some EMPTY)
  /\ (forall i j x y,
         (i < j)%nat ->
         nth_error (available_moves b) i = Some x ->
         nth_error (available_moves b) j = Some y ->
         (x < y)%nat).
Proof.
  split; [apply available_moves_spec|].
  intros i j x y Hij Hx Hy.
  destruct (nth_error_split _ _ Hx) as (l1 & l2 & E & Hl).
  destruct (available_moves_split b _ _ _ E) as [_ Hgt].
  apply Hgt. rewrite E in Hy.
  rewrite nth_error_app2 in Hy by lia.
  destruct (j - length l1)%nat as [|k] eqn:Ek; [lia|].
  simpl in Hy. eapply nth_error_In; eauto.
Qed.

(** X2. Writing a side into an empty cell [m] takes [m], and nothing else,
    out of the candidate moves, so there is one candidate less; writing
    [EMPTY] back gives the candidates there were. *)
Theorem X2_move_removes_candidate (b : board) (m : nat) (p : cell) :
  nth_error b m = Some EMPTY -> p <> EMPTY ->
  available_moves (upd b m p)
  = filter (fun i => negb (i =? m)%nat) (available_moves b)
  /\ S (length (available_moves (upd b m p))) = length (available_moves b)
  /\ available_moves (upd (upd b m p) m EMPTY) = available_moves b.
Proof.
  intros Hm Hp. split; [now apply available_moves_upd|]. split.
  - rewrite !available_moves_nempty. symmetry. now apply nempty_upd.
  - now rewrite (upd_undo b m p EMPTY Hm).
Qed.

Lemma X2_move_removes_candidate_witness :
  available_moves (upd empty_board 4 HUMAN)
  = filter (fun i => negb (i =? 4)%nat) (available_moves empty_board)
  /\ S (length (available_moves (upd empty_board 4 HUMAN)))
     = length (available_moves empty_board)
  /\ available_moves (upd (upd empty_board 4 HUMAN) 4 EMPTY)
     = available_moves empty_board.
Proof.
  apply (X2_move_removes_candidate empty_board 4 HUMAN);
    [reflexivity|discriminate].
Defined.

(** ** [winner] and [score_for] on boards of any length *)

(** What the test of one line can come to. *)
Lemma line_won_cases (b : board) (l : nat * nat * nat) :
  line_won b l = Raise IndexError
  \/ line_won b l = Ok false
  \/ exists x, line_won b l = Ok true
               /\ get b (fst (fst l)) = Ok x /\ holds b l x.
Proof.
  destruct l as [[i j] k]. unfold line_won, holds, get. simpl.
  destruct (nth_error b i) as [x|]; simpl; auto.
  destruct (nth_error b j) as [y|]; simpl; auto.
  destruct (cell_eqb x y) eqn:Exy; auto.
  destruct (nth_error b k) as [z|]; simpl; auto.
  destruct (cell_eqb y z) eqn:Eyz; simpl; auto.
  destruct (cell_eqb z EMPTY) eqn:Ez; simpl; auto.
  right. right. apply cell_eqb_eq in Exy, Eyz. apply cell_eqb_neq in Ez.
  subst. exists z. repeat split; auto.
Qed.

Lemma winner_from_side (lines : list (nat * nat * nat)) (b : board) (s : cell) :
  winner_from lines b = Ok (Some (Win s)) ->
  exists l, In l lines /\ holds b l s.
Proof.
  induction lines as [|l rest IH]; simpl.
  - destruct (existsb _ b); discriminate.
  - destruct (line_won_cases b l) as [E|[E|(x & E & G & H)]]; rewrite E; simpl.
    + discriminate.
    + intros W. destruct (IH W) as (l' & Hl' & Hh). eauto.
    + rewrite G. simpl. intros [= <-]. eauto.
Qed.

(** X3. Whenever [winner] returns, on a board of any length, a side it
    returns is [HUMAN] or [AI], never [EMPTY], and the two sides score the
    outcome with opposite signs:
    [score_for(HUMAN, winner(board)) = - score_for(AI, winner(board))]. *)
Theorem X3_zero_sum (b : board) (w : option result) :
  winner b = Ok w ->
  score_for HUMAN w = - score_for AI w
  /\ (forall s, w = Some (Win s) -> s = HUMAN \/ s = AI).
Proof.
  intros W.
  assert (Side : forall s, w = Some (Win s) -> s = HUMAN \/ s = AI).
  { intros s ->. apply winner_from_side in W.
    destruct W as ([[i j] k] & _ & Hne & _). destruct s; auto. congruence. }
  split; [|exact Side].
  destruct w as [[s|]|]; try reflexivity.
  destruct (Side s eq_refl) as [-> | ->]; reflexivity.
Qed.

Lemma X3_zero_sum_witness :
  score_for HUMAN (Some (Win HUMAN)) = - score_for AI (Some (Win HUMAN))
  /\ (forall s, Some (Win HUMAN) = Some (Win s) -> s = HUMAN \/ s = AI).
Proof. apply (X3_zero_sum double_win). reflexivity. Defined.

(** X4. On a board with fewer than seven cells [winner] never reports a draw
    or an undecided game: it returns the side that holds the line (0, 1, 2)
    or the line (3, 4, 5), and otherwise raises [IndexError] (at the latest
    on [board[6]]). *)
Theorem X4_winner_short_board (b : board) :
  (length b < 7)%nat ->
  winner b = Raise IndexError
  \/ exists s,
      winner b = Ok (Some (Win s))
      /\ (holds b (0, 1, 2)%nat s \/ holds b (3, 4, 5)%nat s).
Proof.
  intros Hlen. unfold winner, WIN_LINES. cbn [winner_from].
  destruct (line_won_cases b (0, 1, 2)%nat) as [E|[E|(x & E & G & H)]];
    rewrite E; cbn [rbind].
  - now left.
  - destruct (line_won_cases b (3, 4, 5)%nat) as [E'|[E'|(x & E' & G & H)]];
      rewrite E'; cbn [rbind].
    + now left.
    + left. unfold line_won, get.
      assert (N : nth_error b 6 = None) by (apply nth_error_None; lia).
      now rewrite N.
    + right. exists x. rewrite G. simpl. auto.
  - right. exists x. rewrite G. simpl. auto.
Qed.

Lemma X4_winner_short_board_witness :
  winner [EMPTY; HUMAN; AI] = Raise IndexError
  \/ exists s,
      winner [EMPTY; HUMAN; AI] = Ok (Some (Win s))
      /\ (holds [EMPTY; HUMAN; AI] (0, 1, 2)%nat s
          \/ holds [EMPTY; HUMAN; AI] (3, 4, 5)%nat s).
Proof. apply (X4_winner_short_board [EMPTY; HUMAN; AI]). simpl. lia. Defined.

(** ** [minimax] with other windows *)

(** X5. On a board of nine cells and for a window with
    [-999 <= alpha < beta <= 999], the score [minimax] returns is the
    full-window score whenever it lies strictly inside the window; a score at
    or below [alpha] is an upper bound of the full-window score and a score
    at or above [beta] a lower bound of it. *)
Theorem X5_window_bounds (b : board) (p : cell) (mx : bool) (a be : Z) :
  length b = 9%nat -> -999 <= a -> a < be -> be <= 999 ->
  exists v mv V mV,
    minimax p mx a be b = Ok ((v, mv), b)
    /\ minimax p mx (-999) 999 b = Ok ((V, mV), b)
    /\ (v <= a -> V <= v)
    /\ (be <= v -> v <= V)
    /\ (a < v < be -> v = V).
Proof.
  intros Hlen Ha Hab Hbe. assert (Hb : (9 <= length b)%nat) by lia.
  pose proof (depth_le_fuel b p) as Hd.
  destruct (minimax_sound b p mx a be Hb) as (v & mv & R & _).
  destruct (minimax_fuel_exact _ b p mx Hb Hd) as ([V mV] & RV & PV).
  exists v, mv, V, mV. split; [exact R|]. split; [exact RV|].
  exact (minimax_fuel_bounded _ b p mx a be v mv b V mV Hb Hd Ha Hab Hbe R PV).
Qed.

Lemma X5_window_bounds_witness :
  exists v mv V mV,
    minimax AI true 0 1 empty_board = Ok ((v, mv), empty_board)
    /\ minimax AI true (-999) 999 empty_board = Ok ((V, mV), empty_board)
    /\ (v <= 0 -> V <= v)
    /\ (1 <= v -> v <= V)
    /\ (0 < v < 1 -> v = V).
Proof.
  apply (X5_window_bounds empty_board AI true 0 1); [reflexivity|lia..].
Defined.

Lemma minimax_closed_window b p mx a be :
  (9 <= length b)%nat -> winner_value WIN_LINES b = None -> be <= a ->
  exists m rest e,
    available_moves b = m :: rest
    /\ evaluated b p (negb mx) a be m e
    /\ minimax p mx a be b = Ok ((e, Some m), b).
Proof.
  intros Hb W Hw.
  destruct (minimax_unfold b p mx a be Hb W) as (U & Hch & Hrec).
  pose proof (winner_value_none b W) as Hne.
  destruct (available_moves b) as [|m rest] eqn:Em; [congruence|].
  assert (Hm : nth_error b m = Some EMPTY).
  { apply available_moves_spec. rewrite Em. now left. }
  destruct (Hrec m (negb mx) a be Hm) as (e & x & E & He).
  exists m, rest, e. split; [reflexivity|]. split.
  { exists x. rewrite <- Hch; auto. }
  rewrite U. destruct mx; simpl negb in E.
  - rewrite (max_loop_cons _ p m rest a be (-999) None b e x Hm E).
    destruct (Z.leb_spec be (Z.max a e)); [|lia].
    destruct (Z.gtb_spec e (-999)); [reflexivity|lia].
  - rewrite (min_loop_cons _ p m rest a be 999 None b e x Hm E).
    destruct (Z.leb_spec (Z.min be e) a); [|lia].
    destruct (Z.ltb_spec e 999); [reflexivity|lia].
Qed.

(** X6. Called with [beta <= alpha] on an undecided board of nine cells,
    either branch of [minimax] stops after its first candidate: the move
    returned is the lowest empty cell and the score is what the recursive
    call for that cell returned. *)
Theorem X6_closed_window (b : board) (p : cell) (mx : bool) (a be : Z) :
  length b = 9%nat -> winner b = Ok None -> be <= a ->
  exists m rest e,
    available_moves b = m :: rest
    /\ evaluated b p (negb mx) a be m e
    /\ minimax p mx a be b = Ok ((e, Some m), b).
Proof.
  intros Hlen W Hw. assert (Hb : (9 <= length b)%nat) by lia.
  rewrite (winner_total b Hb) in W. injection W as W.
  now apply minimax_closed_window.
Qed.

Lemma X6_closed_window_witness :
  exists m rest e,
    available_moves empty_board = m :: rest
    /\ evaluated empty_board HUMAN (negb false) 5 5 m e
    /\ minimax HUMAN false 5 5 empty_board = Ok ((e, Some m), empty_board).
Proof.
  apply (X6_closed_window empty_board HUMAN false 5 5);
    [reflexivity|reflexivity|lia].
Defined.

(** ** The driver and the search *)

(** [ai_move] returns the lowest cell among those with the highest recorded
    score. *)
Lemma ai_move_first (b : board) :
  (9 <= length b)%nat -> available_moves b <> [] ->
  exists v m prob,
    ai_move b = Ok ((m, prob), b)
    /\ In m (available_moves b)
    /\ scored b m v
    /\ forall m', In m' (available_moves b) ->
         exists v', scored b m' v' /\ v' <= v /\ ((m' < m)%nat -> v' < v).
Proof.
  intros Hb Hne.
  destruct (ai_move_spec b Hb Hne)
    as (outs & pre & v & post & mpre & m & mpost
        & F2 & _ & E & Em & Fp & Sm & Hn & Hmax & A).
  exists v, m, (probability outs). split; [exact A|]. split.
  { rewrite Em. apply in_elt. }
  split; [exact Sm|].
  intros m' Hm'. destruct (Forall2_In_l _ _ _ m' F2 Hm') as (v' & Hv' & Sv').
  exists v'. split; [exact Sv'|]. split; [auto|].
  intros Hlt. destruct (available_moves_split b _ _ _ Em) as [_ Hgt].
  rewrite Em in Hm'. apply in_app_or in Hm'.
  destruct Hm' as [Hm'|[->|Hm']]; [|lia|apply Hgt in Hm'; lia].
  destruct (Forall2_In_l _ _ _ m' Fp Hm') as (v'' & Hv'' & Sv'').
  pose proof (evaluated_fun _ _ _ _ _ _ _ _ Sv' Sv''). subst v''.
  assert (v' <> v) by (intros ->; contradiction).
  specialize (Hmax v' Hv'). lia.
Qed.

(** Both [ai_move] and the maximizing branch of the full-window search
    take the first best of the same scores. *)
Lemma ai_move_is_search (b : board) :
  (9 <= length b)%nat -> winner_value WIN_LINES b = None ->
  exists v m prob,
    ai_move b = Ok ((m, prob), b)
    /\ minimax AI true (-999) 999 b = Ok ((v, Some m), b)
    /\ scored b m v
    /\ nth_error b m = Some EMPTY.
Proof.
  intros Hb W. pose proof (winner_value_none b W) as Hne.
  destruct (ai_move_first b Hb Hne) as (v & m & prob & A & Hm & Sm & Ha).
  destruct (minimax_max_first b AI Hb W) as (v0 & m0 & R & Hm0 & Sm0 & Hs).
  destruct (Ha m0 Hm0) as (w0 & Sw0 & Hle0 & Hlt0).
  destruct (Hs m Hm) as (w & Sw & Hle & Hlt).
  pose proof (evaluated_fun _ _ _ _ _ _ _ _ Sw0 Sm0). subst w0.
  pose proof (evaluated_fun _ _ _ _ _ _ _ _ Sw Sm). subst w.
  assert (v = v0) by lia. subst v0.
  assert (m = m0).
  { destruct (Nat.lt_trichotomy m m0) as [H|[H|H]]; auto.
    - specialize (Hlt H). lia.
    - specialize (Hlt0 H). lia. }
  subst m0. exists v, m, prob. repeat split; auto.
  now apply available_moves_spec.
Qed.

(** On a decided board the search returns the score of the outcome at once,
    on a board of any length. *)
Lemma minimax_terminal (b : board) (p : cell) (mx : bool) (a be : Z) r :
  winner b = Ok (Some r) ->
  minimax p mx a be b = Ok ((score_for AI (Some r), None), b).
Proof.
  intros W. unfold minimax.
  replace (length b + 2)%nat with (S (length b + 1)) by lia.
  simpl. unfold bind at 1, inspect at 1. rewrite W. reflexivity.
Qed.

(** X7. On an undecided board of nine cells [ai_move] returns the very move
    that [minimax(board, AI, True, -999, 999)] returns, and the score it
    recorded for that move is the score of that search. *)
Theorem X7_ai_move_is_search (b : board) :
  length b = 9%nat -> winner b = Ok None ->
  exists v m prob,
    ai_move b = Ok ((m, prob), b)
    /\ minimax AI true (-999) 999 b = Ok ((v, Some m), b)
    /\ scored b m v.
Proof.
  intros Hlen W. assert (Hb : (9 <= length b)%nat) by lia.
  rewrite (winner_total b Hb) in W. injection W as W.
  destruct (ai_move_is_search b Hb W) as (v & m & prob & A & R & S & _).
  exists v, m, prob. auto.
Qed.

Lemma X7_ai_move_is_search_witness :
  exists v m prob,
    ai_move win_in_one = Ok ((m, prob), win_in_one)
    /\ minimax AI true (-999) 999 win_in_one = Ok ((v, Some m), win_in_one)
    /\ scored win_in_one m v.
Proof. apply (X7_ai_move_is_search win_in_one); reflexivity. Defined.

Lemma plays_value (ai_turn : bool) (b : board) (r : result) :
  plays legal_reply ai_turn b r ->
  (9 <= length b)%nat ->
  forall v x,
    minimax (mover ai_turn) ai_turn (-999) 999 b = Ok ((v, x), b) ->
    v <= score_for AI (Some r).
Proof.
  induction 1 as [t b r W|b m pr r W A P IH|b m r W Rp P IH];
    intros Hb v x R.
  - rewrite (minimax_terminal b _ _ _ _ r W) in R. injection R as Ev _.
    rewrite <- Ev. apply Z.le_refl.
  - rewrite (winner_total b Hb) in W. injection W as W.
    destruct (ai_move_is_search b Hb W) as (v0 & m0 & pr0 & A0 & R0 & [y S0] & _).
    rewrite A in A0. injection A0 as <- <-.
    simpl mover in R. rewrite R in R0. injection R0 as <- _.
    apply (IH ltac:(now rewrite upd_length) v y). exact S0.
  - rewrite (winner_total b Hb) in W. injection W as W.
    destruct (minimax_min_first b HUMAN Hb W) as (v0 & m0 & R0 & _ & _ & Hs).
    simpl mover in R. rewrite R in R0. injection R0 as <- _.
    assert (Hm : In m (available_moves b)) by now apply available_moves_spec.
    destruct (Hs m Hm) as (v' & [y S'] & Hle & _).
    specialize (IH ltac:(now rewrite upd_length) v' y S'). lia.
Qed.

(** X8. From any board of nine cells, with either side to move: if the
    full-window search for the side to move gives the position the score [v],
    then every game in which the automated side plays the moves of [ai_move],
    whatever free cells the opponent takes, ends in an outcome that
    [score_for] scores at least [v] for the automated side. *)
Theorem X8_guaranteed_value (ai_turn : bool) (b : board) (r : result)
        (v : Z) (x : option nat) :
  length b = 9%nat ->
  minimax (if ai_turn then AI else HUMAN) ai_turn (-999) 999 b
  = Ok ((v, x), b) ->
  plays legal_reply ai_turn b r ->
  v <= score_for AI (Some r).
Proof.
  intros Hlen R P. eapply plays_value; eauto. lia.
Qed.

Lemma X8_guaranteed_value_witness : 1 <= score_for AI (Some (Win AI)).
Proof.
  apply (X8_guaranteed_value true win_in_one (Win AI) 1 (Some 2%nat)).
  - reflexivity.
  - vm_compute. reflexivity.
  - eapply plays_ai.
    + vm_compute. reflexivity.
    + vm_compute. reflexivity.
    + apply plays_over. vm_compute. reflexivity.
Defined.

(** ** The probability at its ends *)

Lemma prob_expr_ends (w d t : nat) :
  (1 <= t <= 9)%nat -> (w + d <= t)%nat ->
  ((prob_expr w d t =? 1)%float = true <-> w = t)
  /\ ((prob_expr w d t =? 0)%float = true <-> w = 0%nat /\ d = 0%nat).
Proof.
  intros Ht Hwd.
  assert (T : prob_ends_ok = true) by (vm_compute; reflexivity).
  unfold prob_ends_ok in T.
  pose proof (proj1 (forallb_forall _ _) T t ltac:(apply in_seq; lia)) as T1.
  cbv beta in T1.
  pose proof (proj1 (forallb_forall _ _) T1 w ltac:(apply in_seq; lia)) as T2.
  cbv beta in T2.
  pose proof (proj1 (forallb_forall _ _) T2 d ltac:(apply in_seq; lia)) as T3.
  cbv beta in T3.
  apply Nat.leb_le in Hwd. rewrite Hwd in T3. simpl in T3.
  apply andb_true_iff in T3. destruct T3 as [E1 E0].
  apply Bool.eqb_prop in E1, E0. rewrite E1, E0.
  rewrite andb_true_iff, !Nat.eqb_eq. tauto.
Qed.

Lemma count_all (x : Z) (l : list Z) :
  count x l = length l <-> Forall (fun v => v = x) l.
Proof.
  unfold count. induction l as [|h t IH]; [split; auto|].
  cbn [filter]. pose proof (filter_length_le (Z.eqb x) t) as Hle.
  destruct (Z.eqb_spec x h) as [->|Hne]; cbn [length].
  - split.
    + intros H. constructor; auto. apply IH. lia.
    + intros H. inversion H; subst. f_equal. now apply IH.
  - split; [lia|]. intros H. inversion H; subst. congruence.
Qed.

Lemma count_none (l : list Z) :
  Forall in_range l ->
  (count 1 l = 0%nat /\ count 0 l = 0%nat) <-> Forall (fun v => v = -1) l.
Proof.
  unfold count, in_range. induction 1 as [|h t Hh Ht IH]; [split; auto|].
  cbn [filter].
  destruct (Z.eqb_spec 1 h) as [<-|H1]; cbn [length].
  - split; [lia|]. intros F. inversion F; lia.
  - destruct (Z.eqb_spec 0 h) as [<-|H0]; cbn [length].
    + split; [lia|]. intros F. inversion F; lia.
    + rewrite IH. split.
      * intros F. constructor; auto. lia.
      * intros F. now inversion F.
Qed.

(** X9. On a board of nine cells with a free cell, the probability
    [ai_move] returns is 1.0 exactly when every candidate move scores +1, and
    0.0 exactly when every candidate move scores -1. *)
Theorem X9_probability_ends (b : board) :
  length b = 9%nat -> available_moves b <> [] ->
  exists outcomes move prob,
    Forall2 (scored b) (available_moves b) outcomes
    /\ ai_move b = Ok ((move, prob), b)
    /\ ((prob =? 1)%float = true <-> Forall (fun v => v = 1) outcomes)
    /\ ((prob =? 0)%float = true <-> Forall (fun v => v = -1) outcomes).
Proof.
  intros Hb Hne.
  destruct (ai_move_spec b) as (outs & pre & v & post & mpre & m & mpost & H);
    [lia|exact Hne|].
  destruct H as (F2 & Fr & E & _ & _ & _ & _ & _ & A).
  exists outs, m, (probability outs). split; [exact F2|]. split; [exact A|].
  assert (Ho : outs <> []) by (rewrite E; now destruct pre).
  rewrite (probability_expr outs Ho).
  assert (Hlen : (1 <= length outs <= 9)%nat).
  { rewrite <- (Forall2_length F2). pose proof (available_moves_length b).
    destruct (available_moves b); [congruence|simpl in *; lia]. }
  destruct (prob_expr_ends (count 1 outs) (count 0 outs) (length outs)
              Hlen (count_two outs)) as [P1 P0].
  rewrite P1, P0, count_all, (count_none outs Fr). tauto.
Qed.

Lemma X9_probability_ends_witness :
  exists outcomes move prob,
    Forall2 (scored win_in_one) (available_moves win_in_one) outcomes
    /\ ai_move win_in_one = Ok ((move, prob), win_in_one)
    /\ ((prob =? 1)%float = true <-> Forall (fun v => v = 1) outcomes)
    /\ ((prob =? 0)%float = true <-> Forall (fun v => v = -1) outcomes).
Proof. apply (X9_probability_ends win_in_one); [reflexivity|discriminate]. Defined.

(** ** The loop of [main], pass by pass *)

Lemma existsb_eqb_In (x : nat) (l : list nat) :
  existsb (Nat.eqb x) l = true <-> In x l.
Proof.
  rewrite existsb_exists. split.
  - intros (y & Hy & E). apply Nat.eqb_eq in E. now subst.
  - intros H. exists x. split; auto. apply Nat.eqb_refl.
Qed.

Lemma handle_events_ai (events : list event) (g : game) :
  g_current g = AI -> g_result g = None ->
  handle_events events g = Ok (if has_quit events then SystemExit else Go g).
Proof.
  intros Hc Hr. induction events as [|ev rest IH]; [reflexivity|].
  destruct ev as [|idx|]; simpl; auto; rewrite Hr; simpl; auto.
  rewrite Hc. simpl. exact IH.
Qed.

Lemma handle_events_human (events : list event) (g : game) :
  g_current g = HUMAN -> g_result g = None ->
  handle_events events g
  = Ok (if has_quit events then SystemExit
        else Go (after_click g (first_free_click (g_board g) events))).
Proof.
  intros Hc Hr. induction events as [|ev rest IH]; [reflexivity|].
  destruct ev as [|idx|]; simpl; auto; rewrite Hr; simpl; auto.
  rewrite Hc. simpl.
  destruct (existsb (Nat.eqb idx) (available_moves (g_board g))) eqn:E; auto.
  apply existsb_eqb_In, available_moves_spec, available_lt in E.
  unfold store. apply Nat.ltb_lt in E. rewrite E. simpl.
  rewrite handle_events_ai by reflexivity. reflexivity.
Qed.

Lemma first_free_click_free (b : board) (events : list event) (idx : nat) :
  first_free_click b events = Some idx ->
  nth_error b idx = Some EMPTY /\ In (MOUSEBUTTONDOWN idx) events.
Proof.
  induction events as [|ev rest IH]; [discriminate|].
  destruct ev as [|i|]; simpl; try (intros H; destruct (IH H); auto).
  destruct (existsb (Nat.eqb i) (available_moves b)) eqn:E.
  - intros [= ->]. split; auto. now apply available_moves_spec, existsb_eqb_In.
  - intros H; destruct (IH H); auto.
Qed.

Lemma first_free_click_none (b : board) (events : list event) :
  first_free_click b events = None <->
  forall idx, In (MOUSEBUTTONDOWN idx) events -> nth_error b idx <> Some EMPTY.
Proof.
  induction events as [|ev rest IH]; simpl.
  - split; [intros _ idx []|reflexivity].
  - destruct ev as [|i|].
    + rewrite IH. split; intros H idx; [intros [E|Hin]; [discriminate|auto]|auto].
    + destruct (existsb (Nat.eqb i) (available_moves b)) eqn:E.
      * split; [discriminate|]. intros H. exfalso. apply (H i); auto.
        now apply available_moves_spec, existsb_eqb_In.
      * rewrite IH. split; intros H idx; [|auto].
        intros [[= <-]|Hin]; auto. intros Hm.
        apply available_moves_spec, existsb_eqb_In in Hm. congruence.
    + rewrite IH. split; intros H idx; [intros [E|Hin]; [discriminate|auto]|auto].
Qed.

Lemma ai_move_no_candidate (b : board) :
  available_moves b = [] -> ai_move b = Raise ValueError.
Proof.
  intros Hav. unfold ai_move. unfold bind at 1, inspect at 1. rewrite Hav.
  reflexivity.
Qed.

(** What one pass through the loop body does when the human is to move. *)
Lemma frame_cases (events : list event) (g : game) :
  at_turn g ->
  (has_quit events = true /\ frame events g = Ok Quit)
  \/ (has_quit events = false
      /\ first_free_click (g_board g) events = None
      /\ frame events g = Ok (Next g None))
  \/ (has_quit events = false
      /\ exists idx,
          first_free_click (g_board g) events = Some idx
          /\ nth_error (g_board g) idx = Some EMPTY
          /\ ((available_moves (upd (g_board g) idx HUMAN) = []
               /\ frame events g = Raise ValueError)
              \/ exists m prob,
                  ai_move (upd (g_board g) idx HUMAN)
                  = Ok ((m, prob), upd (g_board g) idx HUMAN)
                  /\ nth_error (upd (g_board g) idx HUMAN) m = Some EMPTY
                  /\ frame events g
                     = Ok (match winner_value WIN_LINES
                                   (upd (upd (g_board g) idx HUMAN) m AI) with
                           | Some r => Next initial_game (Some r)
                           | None =>
                               Next (Game (upd (upd (g_board g) idx HUMAN) m AI)
                                       HUMAN None (Some prob)) None
                           end))).
Proof.
  intros (Hlen & Hc & Hr & W). unfold frame.
  rewrite (handle_events_human events g Hc Hr).
  destruct (has_quit events); [left; auto|]. right.
  destruct (first_free_click (g_board g) events) as [idx|] eqn:F.
  - right. split; [reflexivity|]. exists idx. split; [reflexivity|].
    destruct (first_free_click_free _ _ _ F) as [Hidx _]. split; [exact Hidx|].
    cbn [rbind after_click g_result g_current g_board truthy negb andb cell_eqb].
    set (b1 := upd (g_board g) idx HUMAN).
    assert (Hb1 : (9 <= length b1)%nat) by (unfold b1; rewrite upd_length; lia).
    destruct (available_moves b1) as [|c cs] eqn:Eav.
    + left. split; [reflexivity|]. unfold ai_reply, bind.
      rewrite (ai_move_no_candidate b1 Eav). reflexivity.
    + right.
      destruct (ai_move_spec b1 Hb1)
        as (outs & pre & v & post & mpre & m & mpost & H); [congruence|].
      destruct H as (_ & _ & _ & Em & _ & _ & _ & _ & A).
      assert (Hm : nth_error b1 m = Some EMPTY).
      { apply available_moves_spec. rewrite Em. apply in_elt. }
      exists m, (probability outs). split; [exact A|]. split; [exact Hm|].
      unfold ai_reply. unfold bind at 1. rewrite A.
      unfold bind at 1, store at 1. cbn [fst snd].
      pose proof (available_lt b1 m Hm) as Hlt. apply Nat.ltb_lt in Hlt.
      rewrite Hlt. unfold ret. cbn [rbind fst snd g_board].
      rewrite winner_total by (rewrite upd_length; lia). cbn [rbind].
      destruct (winner_value WIN_LINES (upd b1 m AI)); reflexivity.
  - left. split; [reflexivity|]. split; [reflexivity|].
    cbn [rbind after_click]. rewrite Hr, Hc. cbn [truthy negb andb cell_eqb rbind].
    rewrite W. cbn [rbind truthy]. destruct g; simpl in *. subst. reflexivity.
Qed.

Lemma at_turn_initial : at_turn initial_game.
Proof. repeat split. Qed.

(** X10. A pass of the loop of [main] that starts with the human to move on
    an undecided board of nine cells and ends normally leaves such a state
    again: either nothing changed, or the human's mark and the reply of the
    automated side were both placed on free cells in that one pass, or an
    outcome was drawn and the variables were reset to their initial values. *)
Theorem X10_frame_keeps_turn (events : list event) (g g' : game)
        (shown : option result) :
  at_turn g ->
  frame events g = Ok (Next g' shown) ->
  at_turn g'
  /\ match shown with
     | Some _ => g' = initial_game
     | None =>
         g' = g
         \/ exists idx m,
             nth_error (g_board g) idx = Some EMPTY
             /\ nth_error (upd (g_board g) idx HUMAN) m = Some EMPTY
             /\ g_board g' = upd (upd (g_board g) idx HUMAN) m AI
     end.
Proof.
  intros T F. pose proof T as (Hlen & _).
  destruct (frame_cases events g T)
    as [[_ E]|[(_ & _ & E)|(_ & idx & _ & Hidx & [[_ E]|(m & prob & _ & Hm & E)])]];
    rewrite E in F; try discriminate.
  - injection F as <- <-. auto.
  - set (b2 := upd (upd (g_board g) idx HUMAN) m AI) in *.
    assert (Hb2 : (9 <= length b2)%nat)
      by (unfold b2; rewrite !upd_length; lia).
    destruct (winner_value WIN_LINES b2) as [r|] eqn:W;
      injection F as <- <-.
    + split; [apply at_turn_initial|reflexivity].
    + split.
      * repeat split; simpl; auto.
        -- unfold b2. rewrite !upd_length. exact Hlen.
        -- rewrite (winner_total b2 Hb2), W. reflexivity.
      * right. exists idx, m. auto.
Qed.

Lemma X10_frame_keeps_turn_witness :
  exists g',
    frame [MOUSEBUTTONDOWN 4] initial_game = Ok (Next g' None)
    /\ at_turn g'
    /\ (g' = initial_game
        \/ exists idx m,
            nth_error (g_board initial_game) idx = Some EMPTY
            /\ nth_error (upd (g_board initial_game) idx HUMAN) m = Some EMPTY
            /\ g_board g' = upd (upd (g_board initial_game) idx HUMAN) m AI).
Proof.
  eexists. split; [vm_compute; reflexivity|].
  apply (X10_frame_keeps_turn [MOUSEBUTTONDOWN 4] initial_game _ None
           at_turn_initial).
  vm_compute. reflexivity.
Defined.

(** X11. A pass without [QUIT] in which no click lands on a free cell
    (clicks on taken cells, or with an index outside the board) changes
    nothing: no mark is placed, the automated side does not move, and no
    outcome is drawn. *)
Theorem X11_idle_frame (events : list event) (g : game) :
  at_turn g ->
  has_quit events = false ->
  (forall idx, In (MOUSEBUTTONDOWN idx) events ->
               nth_error (g_board g) idx <> Some EMPTY) ->
  frame events g = Ok (Next g None).
Proof.
  intros T Q H. apply first_free_click_none in H.
  destruct (frame_cases events g T)
    as [[Q' _]|[(_ & _ & E)|(_ & idx & F & _)]]; congruence.
Qed.

Lemma X11_idle_frame_witness :
  frame [OTHER; MOUSEBUTTONDOWN 9] initial_game = Ok (Next initial_game None).
Proof.
  apply (X11_idle_frame [OTHER; MOUSEBUTTONDOWN 9] initial_game
           at_turn_initial eq_refl).
  intros idx [H|[H|[]]]; [discriminate|]. injection H as <-. discriminate.
Defined.

(** X12. When the human clicks the last free cell of the board, the pass
    raises [ValueError]: [main] calls [ai_move] on the full board without
    consulting [winner] first, and [max] fails on the empty list of
    scores. *)
Theorem X12_last_cell_crash (events : list event) (g : game) (idx : nat) :
  at_turn g ->
  has_quit events = false ->
  available_moves (g_board g) = [idx] ->
  In (MOUSEBUTTONDOWN idx) events ->
  frame events g = Raise ValueError.
Proof.
  intros T Q Hav Hin.
  assert (Hfree : forall i, nth_error (g_board g) i = Some EMPTY -> i = idx).
  { intros i Hi. apply available_moves_spec in Hi. rewrite Hav in Hi.
    destruct Hi as [<-|[]]. reflexivity. }
  assert (Hidx : nth_error (g_board g) idx = Some EMPTY).
  { apply available_moves_spec. rewrite Hav. now left. }
  destruct (frame_cases events g T)
    as [[Q' _]|[(_ & F & _)|(_ & i & _ & Hi & C)]]; [congruence| |].
  - exfalso. exact (proj1 (first_free_click_none _ _) F idx Hin Hidx).
  - apply Hfree in Hi. subst i.
    assert (Hnone : available_moves (upd (g_board g) idx HUMAN) = []).
    { rewrite available_moves_upd by (auto; discriminate).
      rewrite Hav. simpl. now rewrite Nat.eqb_refl. }
    destruct C as [[_ E]|(m & prob & _ & Hm & _)]; [exact E|].
    apply available_moves_spec in Hm. rewrite Hnone in Hm. destruct Hm.
Qed.

Lemma X12_last_cell_crash_witness :
  frame [MOUSEBUTTONDOWN 8] one_cell_left = Raise ValueError.
Proof.
  apply (X12_last_cell_crash [MOUSEBUTTONDOWN 8] one_cell_left 8).
  - repeat split.
  - reflexivity.
  - reflexivity.
  - now left.
Defined.

(** A mark of the human does not complete a line of the automated side. *)
Lemma human_move_no_ai_line (b : board) (idx : nat) :
  (9 <= length b)%nat ->
  winner_value WIN_LINES b = None ->
  nth_error b idx = Some EMPTY ->
  winner_value WIN_LINES (upd b idx HUMAN) <> Some (Win AI).
Proof.
  intros Hb W Hidx W1. unfold winner_value in W, W1.
  destruct (find (line_full (upd b idx HUMAN)) WIN_LINES) as [l|] eqn:F1;
    [|destruct (existsb _ (upd b idx HUMAN)); discriminate].
  injection W1 as Hs. apply find_some in F1. destruct F1 as [Hl F1].
  pose proof (WIN_LINES_in_range (upd b idx HUMAN)) as R.
  rewrite upd_length in R. specialize (R Hb). rewrite Forall_forall in R.
  apply (line_full_holds _ l (R l Hl)) in F1. rewrite Hs in F1.
  assert (Hsame : nth_error (upd b idx HUMAN) idx = Some HUMAN)
    by (apply nth_error_upd_same; eapply available_lt; eauto).
  assert (Hback : forall i, nth_error (upd b idx HUMAN) i = Some AI ->
                            nth_error b i = Some AI).
  { intros i Hi. destruct (Nat.eq_dec idx i) as [<-|Hne]; [congruence|].
    now rewrite nth_error_upd_other in Hi. }
  assert (Hh : holds b l AI).
  { destruct l as [[i j] k]. destruct F1 as (N & Hi & Hj & Hk).
    repeat split; auto. }
  apply holds_line_full in Hh. destruct Hh as [Hf _].
  destruct (find (line_full b) WIN_LINES) eqn:F; [discriminate|].
  rewrite find_none_iff in F. rewrite (F l Hl) in Hf. discriminate.
Qed.

Lemma nempty_no_empty (b : board) :
  existsb (fun v => cell_eqb v EMPTY) b = false -> nempty b = 0%nat.
Proof.
  unfold nempty, is_empty. induction b as [|h t IH]; simpl; auto.
  destruct (cell_eqb h EMPTY); simpl; [discriminate|exact IH].
Qed.

Lemma winner_value_draw (b : board) :
  winner_value WIN_LINES b = Some Draw ->
  available_moves b = [] /\ nempty b = 0%nat.
Proof.
  unfold winner_value. destruct (find _ _); [discriminate|].
  destruct (existsb _ b) eqn:E; [discriminate|]. intros _. split.
  - destruct (available_moves b) eqn:Ea; auto.
    assert (H : available_moves b <> []) by congruence.
    apply existsb_is_empty in H. congruence.
  - now apply nempty_no_empty.
Qed.

Lemma safe_turn_initial : safe_turn initial_game.
Proof.
  split; [apply at_turn_initial|]. split; [reflexivity|].
  exists 10%nat. apply (never_loses_empty_board false).
Qed.

Lemma frame_safe (events : list event) (g : game) :
  safe_turn g ->
  frame events g = Ok Quit
  \/ frame events g = Raise ValueError
  \/ (exists g', frame events g = Ok (Next g' None) /\ safe_turn g')
  \/ frame events g = Ok (Next initial_game (Some (Win AI))).
Proof.
  intros (T & Hodd & n & N). pose proof T as (Hlen & _ & _ & W).
  assert (Hb : (9 <= length (g_board g))%nat) by lia.
  destruct (frame_cases events g T)
    as [[_ E]|[(_ & _ & E)|(_ & idx & _ & Hidx & C)]]; auto.
  { right. right. left. exists g. split; [exact E|].
    split; [exact T|]. split; [exact Hodd|]. eauto. }
  destruct C as [[_ E]|(m & prob & A & Hm & E)]; auto.
  right. right. rewrite E.
  set (b1 := upd (g_board g) idx HUMAN) in *.
  set (b2 := upd b1 m AI) in *.
  assert (Hb1 : (9 <= length b1)%nat) by (unfold b1; rewrite upd_length; lia).
  assert (Hb2 : (9 <= length b2)%nat) by (unfold b2; rewrite upd_length; lia).
  assert (Hn1 : nempty (g_board g) = S (nempty b1))
    by (apply nempty_upd; auto; discriminate).
  assert (Hn2 : nempty b1 = S (nempty b2))
    by (apply nempty_upd; auto; discriminate).
  assert (Hodd2 : Nat.odd (nempty b2) = true).
  { rewrite Hn1, Hn2 in Hodd. now rewrite Nat.odd_succ_succ in Hodd. }
  (* the human's move *)
  destruct n as [|n]; [discriminate|]. simpl in N. rewrite W in N.
  rewrite forallb_forall in N.
  specialize (N idx (proj2 (available_moves_spec _ _) Hidx)).
  fold b1 in N.
  (* the reply *)
  destruct n as [|n]; [discriminate|]. simpl in N.
  rewrite (winner_total b1 Hb1) in N.
  destruct (winner_value WIN_LINES b1) as [r1|] eqn:W1.
  { exfalso. destruct r1 as [[| |]|]; try discriminate.
    - rewrite winner_total in W by exact Hb. injection W as W.
      exact (human_move_no_ai_line _ idx Hb W Hidx W1).
    - apply winner_value_draw in W1. destruct W1 as [Hav _].
      apply available_moves_spec in Hm. rewrite Hav in Hm. destruct Hm. }
  rewrite A in N. fold b2 in N.
  destruct (winner_value WIN_LINES b2) as [r|] eqn:W2.
  - right. destruct n as [|n]; [discriminate|]. simpl in N.
    rewrite (winner_total b2 Hb2), W2 in N.
    destruct r as [[| |]|]; try discriminate; [reflexivity|].
    apply winner_value_draw in W2. destruct W2 as [_ Hz].
    rewrite Hz in Hodd2. discriminate.
  - left. eexists. split; [reflexivity|]. split; [|split; eauto].
    repeat split; simpl; auto.
    + unfold b2, b1. rewrite !upd_length. exact Hlen.
    + now rewrite (winner_total b2 Hb2), W2.
Qed.

Lemma run_safe (frames : list (list event)) :
  forall g, safe_turn g ->
    Forall (fun r => r = Win AI) (fst (run frames g))
    /\ match snd (run frames g) with
       | Running g' => at_turn g'
       | Exited => True
       | Crashed e => e = ValueError
       | Stalled => False
       end.
Proof.
  induction frames as [|events rest IH]; intros g S.
  - simpl. split; [constructor|apply S].
  - simpl.
    destruct (frame_safe events g S) as [E|[E|[(g' & E & S')|E]]]; rewrite E.
    + simpl. auto.
    + simpl. auto.
    + destruct (IH g' S') as [I1 I2]. destruct (run rest g'). auto.
    + destruct (IH initial_game safe_turn_initial) as [I1 I2].
      destruct (run rest initial_game). simpl in *. auto.
Qed.

(** X13. Started as [main] starts it, and whatever the events of the passes,
    the loop never draws any outcome but the win of the automated side
    (["O wins!"]): a win of the human or a draw is never shown.  It can only
    stop by [sys.exit()] or by a [ValueError], and the game in which the
    human clicks the cells 0, 1, 6, 5 and 8 does stop that way, on the move
    that fills the board. *)
Theorem X13_only_ai_wins_shown :
  (forall frames,
      Forall (fun r => r = Win AI) (fst (run frames initial_game))
      /\ match snd (run frames initial_game) with
         | Running g => at_turn g
         | Exited => True
         | Crashed e => e = ValueError
         | Stalled => False
         end)
  /\ run (map (fun idx => [MOUSEBUTTONDOWN idx]) [0; 1; 6; 5; 8]%nat)
         initial_game
     = ([], Crashed ValueError).
Proof.
  split; [|vm_compute; reflexivity].
  intros frames. apply run_safe, safe_turn_initial.
Qed.


(** ** A win within reach *)

(** X14. On an undecided board of nine cells on which some free cell would
    complete a line for the automated side, [ai_move] returns a move it has
    scored +1, and every game that goes on from there with the moves of
    [ai_move], whatever free cells the opponent takes, ends in a win of the
    automated side. *)
Theorem X14_win_within_reach (b : board) (m1 : nat) :
  length b = 9%nat ->
  winner b = Ok None ->
  nth_error b m1 = Some EMPTY ->
  winner (upd b m1 AI) = Ok (Some (Win AI)) ->
  exists m prob,
    ai_move b = Ok ((m, prob), b)
    /\ scored b m 1
    /\ forall r, plays legal_reply true b r -> r = Win AI.
Proof.
  intros Hlen W Hm1 W1. assert (Hb : (9 <= length b)%nat) by lia.
  pose proof W as Wv. rewrite (winner_total b Hb) in Wv. injection Wv as Wv.
  destruct (ai_move_is_search b Hb Wv) as (v & m & prob & A & R & S & _).
  destruct (minimax_max_first b AI Hb Wv) as (v0 & m0 & R0 & _ & _ & Hs).
  rewrite R in R0. injection R0 as <- <-.
  destruct (Hs m1 (proj2 (available_moves_spec b m1) Hm1))
    as (v1 & [x E1] & Hle & _).
  rewrite (minimax_terminal _ _ _ _ _ _ W1) in E1. injection E1 as E1 _.
  simpl in E1.
  destruct (minimax_sound b AI true (-999) 999 Hb)
    as (v' & mv' & R' & Hr & _).
  rewrite R in R'. injection R' as <- _.
  assert (v = 1) by lia. subst v.
  exists m, prob. split; [exact A|]. split; [exact S|].
  intros r P.
  pose proof (plays_value true b r P Hb 1 (Some m) R) as Hv.
  destruct r as [[| |]|]; simpl in Hv; try lia. reflexivity.
Qed.

Lemma X14_win_within_reach_witness :
  exists m prob,
    ai_move win_in_one = Ok ((m, prob), win_in_one)
    /\ scored win_in_one m 1
    /\ forall r, plays legal_reply true win_in_one r -> r = Win AI.
Proof.
  apply (X14_win_within_reach win_in_one 2); reflexivity.
Defined.
